(** * text_pipeline: a shallow embedding of [stapp.py]

    The PDF pipeline of [stapp.py] reads every PDF of a folder, removes
    English stopwords from its text, builds a frequency-ranked summary and
    a keyword list, and stores one record per document in MongoDB.

    The embedding follows the Python source function by function.

    - Python [str] values are [string]s whose characters are the code
      points 0..255; [isspace], [lower] and [isalpha] are the Unicode
      predicates of CPython restricted to that range.
    - [collections.Counter] is an association list in first-insertion order
      (the iteration order of a Python dict).
    - [sorted(..., reverse=True)] is a stable descending insertion sort;
      a stable sort has one possible output, so it stands for Timsort.
    - NLTK (stopword list, [sent_tokenize], [word_tokenize]), pdfplumber,
      pymongo and the file system are collaborators outside the repository:
      they are the fields of the records [nltk] and [world], and every
      general theorem quantifies over them.
    - Streamlit output and database writes are recorded as a trace of
      [effect]s; exceptions are the [Raises] outcome of a computation.
    - The thread pool is modelled by the set of all interleavings of the
      traces of the submitted tasks. A task performs one insertion; the
      answer of the client to it is an input of the model.
    - The counts [num_sentences] and [top_n] are natural numbers; the
      pipeline calls with the defaults 3 and 5.
    - [st.write], [st.warning] and [st.error] append to the trace and do
      not raise.
    - [main] is one rerun of the Streamlit script: the widgets' values are
      inputs, the page shown is the output. *)

From Stdlib Require Import List String Ascii Bool Arith Lia.
From Stdlib Require Import Permutation Sorted DecimalString.
Import ListNotations.
Open Scope string_scope.
Open Scope list_scope.
Open Scope nat_scope.

(** ** Python [str] primitives *)

Module PyStr.

Definition code (c : ascii) : nat := nat_of_ascii c.

Definition between (lo hi n : nat) : bool := (lo <=? n) && (n <=? hi).

(** [str.isspace] on one character: TAB..CR, FS..US, SPACE, NEL, NBSP. *)
Definition isspace_char (c : ascii) : bool :=
  let n := code c in
  between 9 13 n || between 28 32 n || (n =? 133) || (n =? 160).

(** Cased upper-case letters below 256: A-Z and the Latin-1 capitals. *)
Definition isupper_char (c : ascii) : bool :=
  let n := code c in
  between 65 90 n || between 192 214 n || between 216 222 n.

Definition lower_char (c : ascii) : ascii :=
  if isupper_char c then ascii_of_nat (code c + 32) else c.

(** [str.isalpha] on one character: general category L*. *)
Definition isalpha_char (c : ascii) : bool :=
  let n := code c in
  between 65 90 n || between 97 122 n
  || (n =? 170) || (n =? 181) || (n =? 186)
  || between 192 214 n || between 216 246 n || between 248 255 n.

Fixpoint chars (s : string) : list ascii :=
  match s with
  | EmptyString => []
  | String c r => c :: chars r
  end.

Fixpoint all_chars (p : ascii -> bool) (s : string) : bool :=
  match s with
  | EmptyString => true
  | String c r => p c && all_chars p r
  end.

(** [s.lower()] *)
Fixpoint lower (s : string) : string :=
  match s with
  | EmptyString => EmptyString
  | String c r => String (lower_char c) (lower r)
  end.

(** [s.isalpha()]: non-empty and every character alphabetic. *)
Definition isalpha (s : string) : bool :=
  match s with
  | EmptyString => false
  | String _ _ => all_chars isalpha_char s
  end.

(** Truth value of a string: [not s] holds exactly for the empty string. *)
Definition is_empty (s : string) : bool :=
  match s with
  | EmptyString => true
  | String _ _ => false
  end.

Definition starts_word (s : string) : bool :=
  match s with
  | EmptyString => false
  | String c _ => negb (isspace_char c)
  end.

(** [s.split()]: maximal runs of non-whitespace characters, in order. *)
Fixpoint split (s : string) : list string :=
  match s with
  | EmptyString => []
  | String c r =>
      if isspace_char c then split r
      else if starts_word r then
        match split r with
        | w :: ws => String c w :: ws
        | [] => [String c EmptyString]
        end
      else String c EmptyString :: split r
  end.

(** [sep.join(l)] *)
Definition join (sep : string) (l : list string) : string :=
  String.concat sep l.

Fixpoint lstrip (s : string) : string :=
  match s with
  | EmptyString => EmptyString
  | String c r => if isspace_char c then lstrip r else s
  end.

Fixpoint rstrip (s : string) : string :=
  match s with
  | EmptyString => EmptyString
  | String c r =>
      match rstrip r with
      | EmptyString => if isspace_char c then EmptyString else String c EmptyString
      | String _ _ as r' => String c r'
      end
  end.

(** [s.strip()] *)
Definition strip (s : string) : string := rstrip (lstrip s).

(** [s.endswith(suffix)] *)
Fixpoint endswith (s suffix : string) : bool :=
  String.eqb s suffix
  || match s with
     | EmptyString => false
     | String _ r => endswith r suffix
     end.

(** [s.startswith(p)] *)
Definition startswith (s p : string) : bool := prefix p s.

(** [s.rfind(ch)], counting from offset [i]; [None] stands for -1. *)
Fixpoint rfind (ch : ascii) (s : string) (i : nat) : option nat :=
  match s with
  | EmptyString => None
  | String c r =>
      match rfind ch r (S i) with
      | Some j => Some j
      | None => if Ascii.eqb c ch then Some i else None
      end
  end.

(** [str(n)] for a non-negative integer. *)
Definition str_of_nat (n : nat) : string :=
  NilEmpty.string_of_uint (Nat.to_uint n).

End PyStr.
Export PyStr.

(** ** [os.path] (POSIX flavour) *)

Module OsPath.

Definition sep : ascii := "/"%char.
Definition extsep : ascii := "."%char.

(** [os.path.join(a, p)] *)
Definition join (a p : string) : string :=
  if startswith p "/" then p
  else if is_empty a || endswith a "/" then (a ++ p)%string
  else (a ++ "/" ++ p)%string.

Fixpoint basename_from (cur p : string) : string :=
  match p with
  | EmptyString => cur
  | String c r => if Ascii.eqb c sep then basename_from r r else basename_from cur r
  end.

(** [os.path.basename(p)]: what follows the last separator. *)
Definition basename (p : string) : string := basename_from p p.

(** [os.path.splitext(p)[0]]: the extension starts at the last dot of the
    last component, unless that component consists of leading dots only up
    to that dot. *)
Definition splitext_root (p : string) : string :=
  match rfind extsep p 0 with
  | None => p
  | Some dotIndex =>
      let filenameIndex :=
        match rfind sep p 0 with
        | Some sepIndex => S sepIndex
        | None => 0
        end in
      if filenameIndex <=? dotIndex then
        if existsb
             (fun k => match get k p with
                       | Some c => negb (Ascii.eqb c extsep)
                       | None => false
                       end)
             (seq filenameIndex (dotIndex - filenameIndex))
        then substring 0 dotIndex p
        else p
      else p
  end.

End OsPath.

(** ** [collections.Counter] and [sorted] *)

Module Counter.

(** A counter keeps its keys in the order of their first insertion. *)
Definition t : Type := list (string * nat).

(** [c[w]]: a missing key counts 0. *)
Fixpoint get (c : t) (w : string) : nat :=
  match c with
  | [] => 0
  | (k, n) :: c' => if String.eqb k w then n else get c' w
  end.

(** [c[w] += 1] *)
Fixpoint incr (c : t) (w : string) : t :=
  match c with
  | [] => [(w, 1)]
  | (k, n) :: c' => if String.eqb k w then (k, S n) :: c' else (k, n) :: incr c' w
  end.

(** [Counter(ws)] *)
Definition of_list (ws : list string) : t := fold_left incr ws [].

(** [c.items()] *)
Definition items (c : t) : list (string * nat) := c.

End Counter.

(** Insertion of [x] in front of the first element whose key does not
    exceed the key of [x]. *)
Fixpoint insert_desc {A : Type} (key : A -> nat) (x : A) (l : list A) : list A :=
  match l with
  | [] => [x]
  | y :: l' => if key y <=? key x then x :: l else y :: insert_desc key x l'
  end.

(** [sorted(l, key=key, reverse=True)] *)
Definition sorted_reverse {A : Type} (key : A -> nat) (l : list A) : list A :=
  fold_right (insert_desc key) [] l.

(** [c.most_common(n)], that is [heapq.nlargest(n, c.items(), key=count)]. *)
Definition most_common (n : nat) (c : Counter.t) : list (string * nat) :=
  firstn n (sorted_reverse snd (Counter.items c)).

(** ** Collaborators *)

(** NLTK: [stopwords.words('english')], [sent_tokenize], [word_tokenize]. *)
Record nltk : Type := {
  stopwords_words : list string;
  sent_tokenize : string -> list string;
  word_tokenize : string -> list string
}.

(** The error taxonomy of the pipeline. Every member is a Python
    [Exception], which is what the [except] clauses of the source catch. *)
Inductive exn_kind : Type :=
| ExtractionError
| PersistenceError
| EnumerationError
| UnexpectedFault.

Record exn : Type := { kind : exn_kind; message : string }.

(** [str(e)] *)
Definition str_exn (e : exn) : string := message e.

Inductive outcome (A : Type) : Type :=
| Returns (a : A)
| Raises (e : exn).
Arguments Returns {A} a.
Arguments Raises {A} e.

(** The document handed to [collection.insert_one]. *)
Record record : Type := {
  pdf_name : string;
  summary : string;
  keywords : list string
}.

(** What a run leaves behind: Streamlit messages and stored documents. *)
Inductive effect : Type :=
| StWrite (msg : string)
| StWarning (msg : string)
| StError (msg : string)
| StSuccess (msg : string)
| Inserted (db_name collection_name : string) (doc : record).

(** The outside world: the folder listing, the pages pdfplumber finds in a
    file (a page without text is [None]), and the answer of the MongoDB
    client to one insertion (connection, name lookup and write together). *)
Record world : Type := {
  listdir : string -> outcome (list string);
  pdfplumber_open : string -> outcome (list (option string));
  insert_one : string -> string -> record -> outcome unit
}.

(** ** Computations with a trace and exceptions *)

Definition io (A : Type) : Type := (list effect * outcome A)%type.

Definition ret {A : Type} (a : A) : io A := ([], Returns a).

Definition bind {A B : Type} (m : io A) (k : A -> io B) : io B :=
  match m with
  | (tr, Returns a) => let (tr', r) := k a in (tr ++ tr', r)
  | (tr, Raises e) => (tr, Raises e)
  end.

(** [try: body except Exception as e: handler e] *)
Definition try_except {A : Type} (body : io A) (handler : exn -> io A) : io A :=
  match body with
  | (tr, Returns a) => (tr, Returns a)
  | (tr, Raises e) => let (tr', r) := handler e in (tr ++ tr', r)
  end.

Definition call {A : Type} (r : outcome A) : io A := ([], r).

Definition emit (e : effect) : io unit := ([e], Returns tt).

Notation "x <- m ;; k" := (bind m (fun x => k))
  (at level 61, m at next level, right associativity).
Notation "m ;;; k" := (bind m (fun _ => k))
  (at level 61, right associativity).

Definition st_write (msg : string) : io unit := emit (StWrite msg).
Definition st_warning (msg : string) : io unit := emit (StWarning msg).
Definition st_error (msg : string) : io unit := emit (StError msg).

Definition trace {A : Type} (m : io A) : list effect := fst m.
Definition result {A : Type} (m : io A) : outcome A := snd m.

(** All the ways the traces of concurrently running tasks can be merged:
    each step takes the next effect of some task. *)
Inductive interleaving {A : Type} : list (list A) -> list A -> Prop :=
| interleaving_done (ls : list (list A)) :
    Forall (fun l => l = []) ls -> interleaving ls []
| interleaving_step (before after : list (list A)) (x : A) (l tr : list A) :
    interleaving (before ++ l :: after) tr ->
    interleaving (before ++ (x :: l) :: after) (x :: tr).

(** ** The functions of [stapp.py] *)

Section Pipeline.

Variable N : nltk.
Variable W : world.

(** [word.lower() not in stop_words] with
    [stop_words = set(stopwords.words('english'))] *)
Definition is_stopword (word : string) : bool :=
  existsb (String.eqb (lower word)) (stopwords_words N).

Definition drop_stopwords (words : list string) : list string :=
  filter (fun word => negb (is_stopword word)) words.

(** The loop of [extract_text_from_pdf]:
    [text += page.extract_text() or ""] for each page. *)
Definition pages_text (pages : list (option string)) : string :=
  fold_left
    (fun text page =>
       let page_text := match page with Some t => t | None => "" end in
       (text ++ page_text)%string)
    pages "".

(** [extract_text_from_pdf] *)
Definition extract_text_from_pdf (pdf_path : string) : io (string * nat) :=
  pages <- call (pdfplumber_open W pdf_path) ;;
  let num_pages := List.length pages in
  let text := pages_text pages in
  ret (text, num_pages).

(** [word_freq = Counter(word_tokenize(text.lower()))] *)
Definition word_freq (text : string) : Counter.t :=
  Counter.of_list (word_tokenize N (lower text)).

(** The sort key of [custom_summarization]:
    [sum(word_freq[word] for word in word_tokenize(sentence.lower()))] *)
Definition sentence_score (freq : Counter.t) (sentence : string) : nat :=
  list_sum (map (Counter.get freq) (word_tokenize N (lower sentence))).

Definition ranked_sentences (text : string) : list string :=
  sorted_reverse (sentence_score (word_freq text)) (sent_tokenize N text).

(** [custom_summarization] *)
Definition custom_summarization (text : string) (num_sentences : nat) : string :=
  if is_empty (strip text) then ""
  else join " " (firstn num_sentences (ranked_sentences text)).

(** [remove_stopwords] *)
Definition remove_stopwords (text : string) : string :=
  let filtered_words := drop_stopwords (split text) in
  join " " filtered_words.

(** The frequency table of [extract_keywords]. *)
Definition keyword_freq (text : string) : Counter.t :=
  let text' := lower (join " " (drop_stopwords (split text))) in
  let words := word_tokenize N text' in
  Counter.of_list words.

(** [extract_keywords] *)
Definition extract_keywords (text : string) (top_n : nat) : list string :=
  if is_empty (strip text) then []
  else
    map fst
        (filter (fun item => isalpha (fst item))
                (most_common top_n (keyword_freq text))).

(** [save_to_mongo] *)
Definition save_to_mongo (pdf_path summary : string) (keywords : list string)
    (db_name collection_name : string) : io unit :=
  try_except
    (let pdf_name := OsPath.splitext_root (OsPath.basename pdf_path) in
     let doc := {| pdf_name := pdf_name; summary := summary; keywords := keywords |} in
     call (insert_one W db_name collection_name doc) ;;;
     emit (Inserted db_name collection_name doc))
    (fun e => st_error ("Failed to save to MongoDB: " ++ str_exn e)).

Definition processing_msg (pdf_path : string) (num_pages : nat) : string :=
  ("Processing '" ++ OsPath.basename pdf_path ++ "' ("
     ++ str_of_nat num_pages ++ " pages)")%string.

Definition saved_msg (pdf_path : string) : string :=
  ("Saved summary and keywords for '" ++ OsPath.basename pdf_path ++ "'")%string.

Definition error_processing_msg (pdf_path : string) (e : exn) : string :=
  ("Error processing '" ++ OsPath.basename pdf_path ++ "': " ++ str_exn e)%string.

(** [process_single_pdf] *)
Definition process_single_pdf (pdf_path db_name collection_name : string) : io unit :=
  try_except
    (extracted <- extract_text_from_pdf pdf_path ;;
     let (text, num_pages) := (extracted : string * nat) in
     st_write (processing_msg pdf_path num_pages) ;;;
     let processed_text := remove_stopwords text in
     let summary := custom_summarization processed_text 3 in
     let keywords := extract_keywords processed_text 5 in
     save_to_mongo pdf_path summary keywords db_name collection_name ;;;
     st_write (saved_msg pdf_path))
    (fun e => st_error (error_processing_msg pdf_path e)).

(** [future.result()] for each future in submission order: the first
    exception of a task is raised again. *)
Fixpoint first_failure (results : list (outcome unit)) : outcome unit :=
  match results with
  | [] => Returns tt
  | Returns _ :: rest => first_failure rest
  | Raises e :: _ => Raises e
  end.

(** [pdf_files = [f for f in names if f.endswith('.pdf')]] *)
Definition pdf_files_of (names : list string) : list string :=
  filter (fun f => endswith f ".pdf") names.

(** The tasks handed to the executor, in submission order. *)
Definition submitted (folder_path db_name collection_name : string)
    (pdf_files : list string) : list (io unit) :=
  map (fun pdf_file =>
         let pdf_path := OsPath.join folder_path pdf_file in
         process_single_pdf pdf_path db_name collection_name)
      pdf_files.

(** [run_pipeline]: the traces and results a call can have. With tasks
    submitted, every interleaving of their traces is a possible run. *)
Definition run_pipeline (folder_path db_name collection_name : string)
    (tr : list effect) (res : outcome unit) : Prop :=
  match listdir W folder_path with
  | Raises e => tr = [] /\ res = Raises e
  | Returns names =>
      match pdf_files_of names with
      | [] => tr = [StWarning "No PDF files found in the folder."] /\ res = Returns tt
      | pdf_files =>
          let futures := submitted folder_path db_name collection_name pdf_files in
          interleaving (map trace futures) tr
          /\ res = first_failure (map result futures)
      end
  end.

(** The run in which the pool executes the tasks one after the other. *)
Definition run_pipeline_in_order (folder_path db_name collection_name : string)
    : io unit :=
  match listdir W folder_path with
  | Raises e => ([], Raises e)
  | Returns names =>
      match pdf_files_of names with
      | [] => st_warning "No PDF files found in the folder."
      | pdf_files =>
          let futures := submitted folder_path db_name collection_name pdf_files in
          (List.concat (map trace futures), first_failure (map result futures))
      end
  end.

End Pipeline.

(** ** Reference collaborators

    Concrete collaborators on which the functions above can be run. The
    stopword list is NLTK's English list. The two tokenizers reproduce
    NLTK on texts whose only non-alphanumeric characters are whitespace
    and the marks below: [word_tokenize] makes each mark a token of its
    own, [sent_tokenize] ends a sentence after [?] or [!] followed by
    whitespace. *)

Module Reference.

Definition english_stopwords : list string :=
  [ "i"; "me"; "my"; "myself"; "we"; "our"; "ours"; "ourselves"; "you";
    "you're"; "you've"; "you'll"; "you'd"; "your"; "yours"; "yourself";
    "yourselves"; "he"; "him"; "his"; "himself"; "she"; "she's"; "her";
    "hers"; "herself"; "it"; "it's"; "its"; "itself"; "they"; "them";
    "their"; "theirs"; "themselves"; "what"; "which"; "who"; "whom";
    "this"; "that"; "that'll"; "these"; "those"; "am"; "is"; "are"; "was";
    "were"; "be"; "been"; "being"; "have"; "has"; "had"; "having"; "do";
    "does"; "did"; "doing"; "a"; "an"; "the"; "and"; "but"; "if"; "or";
    "because"; "as"; "until"; "while"; "of"; "at"; "by"; "for"; "with";
    "about"; "against"; "between"; "into"; "through"; "during"; "before";
    "after"; "above"; "below"; "to"; "from"; "up"; "down"; "in"; "out";
    "on"; "off"; "over"; "under"; "again"; "further"; "then"; "once";
    "here"; "there"; "when"; "where"; "why"; "how"; "all"; "any"; "both";
    "each"; "few"; "more"; "most"; "other"; "some"; "such"; "no"; "nor";
    "not"; "only"; "own"; "same"; "so"; "than"; "too"; "very"; "s"; "t";
    "can"; "will"; "just"; "don"; "don't"; "should"; "should've"; "now";
    "d"; "ll"; "m"; "o"; "re"; "ve"; "y"; "ain"; "aren"; "aren't";
    "couldn"; "couldn't"; "didn"; "didn't"; "doesn"; "doesn't"; "hadn";
    "hadn't"; "hasn"; "hasn't"; "haven"; "haven't"; "isn"; "isn't"; "ma";
    "mightn"; "mightn't"; "mustn"; "mustn't"; "needn"; "needn't"; "shan";
    "shan't"; "shouldn"; "shouldn't"; "wasn"; "wasn't"; "weren";
    "weren't"; "won"; "won't"; "wouldn"; "wouldn't" ].

(** The marks the Treebank rules always surround with spaces. *)
Definition is_mark (c : ascii) : bool :=
  existsb (Ascii.eqb c) (chars ";@#$%&?!()[]{}<>").

Fixpoint pad_marks (s : string) : string :=
  match s with
  | EmptyString => EmptyString
  | String c r =>
      if is_mark c then String " " (String c (String " " (pad_marks r)))
      else String c (pad_marks r)
  end.

Definition mark_word_tokenize (text : string) : list string :=
  split (pad_marks text).

Definition is_sent_end (c : ascii) : bool :=
  Ascii.eqb c "?" || Ascii.eqb c "!".

Definition starts_space (s : string) : bool :=
  match s with
  | EmptyString => false
  | String c _ => isspace_char c
  end.

Fixpoint sentence_pieces (s : string) : list string :=
  match s with
  | EmptyString => []
  | String c r =>
      if is_sent_end c && starts_space r
      then String c EmptyString :: sentence_pieces r
      else match sentence_pieces r with
           | p :: ps => String c p :: ps
           | [] => [String c EmptyString]
           end
  end.

Definition mark_sent_tokenize (text : string) : list string :=
  filter (fun s => negb (is_empty s)) (map strip (sentence_pieces text)).

Definition english : nltk :=
  {| stopwords_words := english_stopwords;
     sent_tokenize := mark_sent_tokenize;
     word_tokenize := mark_word_tokenize |}.

Definition connection_refused : exn :=
  {| kind := PersistenceError; message := "localhost:27017: Connection refused" |}.

Definition no_such_file : exn :=
  {| kind := EnumerationError; message := "No such file or directory" |}.

Definition not_a_pdf : exn :=
  {| kind := ExtractionError; message := "No /Root object! - Is this really a PDF?" |}.

(** A folder [docs] with three PDFs, the second of which is corrupt, and a
    file of another type. *)
Definition docs_listdir (folder_path : string) : outcome (list string) :=
  if String.eqb folder_path "docs"
  then Returns ["A.pdf"; "B.pdf"; "notes.txt"; "C.pdf"]
  else if String.eqb folder_path "empty"
  then Returns ["notes.txt"; "pdf"]
  else Raises no_such_file.

Definition docs_open (pdf_path : string) : outcome (list (option string)) :=
  if String.eqb pdf_path "docs/A.pdf"
  then Returns [Some "Cats are great! "; None; Some "Who is it?"]
  else if String.eqb pdf_path "docs/C.pdf"
  then Returns [Some "Dogs bark! Dogs and cats play!"]
  else if String.eqb pdf_path "docs/B.pdf"
  then Raises not_a_pdf
  else Raises no_such_file.

(** A store that accepts every write, and one that cannot be reached. *)
Definition accepting (db_name collection_name : string) (doc : record)
    : outcome unit := Returns tt.

Definition unreachable (db_name collection_name : string) (doc : record)
    : outcome unit := Raises connection_refused.

Definition docs_world : world :=
  {| listdir := docs_listdir; pdfplumber_open := docs_open; insert_one := accepting |}.

Definition offline_world : world :=
  {| listdir := docs_listdir; pdfplumber_open := docs_open; insert_one := unreachable |}.

End Reference.

Import Reference.

(** ** Vocabulary of the properties *)

(** [w in l] *)
Definition mem (w : string) (l : list string) : bool := existsb (String.eqb w) l.

(** A word in the sense of [str.split]: not empty, no whitespace inside. *)
Definition is_word (w : string) : bool :=
  negb (is_empty w) && all_chars (fun c => negb (isspace_char c)) w.

(** Non-increasing order of keys. *)
Definition desc {A : Type} (key : A -> nat) (a b : A) : Prop := key b <= key a.

(** The tokenized text from which [extract_keywords] counts frequencies. *)
Definition keyword_tokens (N : nltk) (text : string) : list string :=
  word_tokenize N (lower (join " " (drop_stopwords N (split text)))).

(** The alphabetic tokens of [word_tokenize] are made of characters of the
    tokenized text (NLTK only rewrites quotation marks). *)
Definition tokens_from_text (N : nltk) : Prop :=
  forall (s t : string) (c : ascii),
    In t (word_tokenize N s) -> isalpha t = true ->
    In c (chars t) -> In c (chars s).

(** The record [process_single_pdf] builds for a file with these pages. *)
Definition document_record (N : nltk) (pdf_path : string)
    (pages : list (option string)) : record :=
  let processed_text := remove_stopwords N (pages_text pages) in
  {| pdf_name := OsPath.splitext_root (OsPath.basename pdf_path);
     summary := custom_summarization N processed_text 3;
     keywords := extract_keywords N processed_text 5 |}.

Definition is_error (e : effect) : bool :=
  match e with
  | StError _ => true
  | _ => false
  end.

(** The documents a trace stores, in the order of their insertion. *)
Fixpoint inserted_docs (tr : list effect) : list record :=
  match tr with
  | [] => []
  | Inserted _ _ doc :: tr' => doc :: inserted_docs tr'
  | _ :: tr' => inserted_docs tr'
  end.

(** The words of a list in the order of their first occurrence. *)
Fixpoint first_seen (ws : list string) : list string :=
  match ws with
  | [] => []
  | w :: ws' => w :: filter (fun x => negb (String.eqb w x)) (first_seen ws')
  end.

(** [l] can be read in [l'] from left to right, possibly with gaps. *)
Inductive subseq {A : Type} : list A -> list A -> Prop :=
| subseq_nil (l' : list A) : subseq [] l'
| subseq_skip (x : A) (l l' : list A) : subseq l l' -> subseq l (x :: l')
| subseq_take (x : A) (l l' : list A) : subseq l l' -> subseq (x :: l) (x :: l').

(** ** The Streamlit page [main] *)

(** [s.replace(old, new)] where [old] and [new] are one character long. *)
Fixpoint replace_char (old new : ascii) (s : string) : string :=
  match s with
  | EmptyString => EmptyString
  | String c r =>
      String (if Ascii.eqb c old then new else c) (replace_char old new r)
  end.

(** One rerun of the script: the value each [st.text_input] returns, given
    its label and default, whether [st.button] reports a click, and the
    answer of [os.path.exists]. *)
Record session : Type := {
  text_input : string -> string -> string;
  button : string -> bool;
  path_exists : string -> bool
}.

(** What a rerun leaves: the elements of the page from top to bottom and,
    among them in the order of their occurrence, the records stored. *)
Inductive page_item : Type :=
| StTitle (text : string)
| StTextInput (label : string)
| StButton (label : string)
| Shown (e : effect).

Definition form : list page_item :=
  [StTitle "PDF Processing Pipeline";
   StTextInput "Folder Path:";
   StTextInput "Database Name:";
   StTextInput "Collection Name:";
   StButton "Process PDFs"].

(** Streamlit displays what the script thread writes. In [run_pipeline]
    that is the warning; [st.write] and [st.error] are called by
    [process_single_pdf] only, in the workers of the pool, which have no
    script context, and their lines do not appear on the page. The stored
    records remain. *)
Definition outlives_workers (e : effect) : bool :=
  match e with
  | StWrite _ | StError _ => false
  | StWarning _ | StSuccess _ | Inserted _ _ _ => true
  end.

(** [main]: the pages a rerun can show. The exception of [run_pipeline]
    is caught and shown; the thread pool has joined before it is raised. *)
Definition main (N : nltk) (W : world) (S : session) (page : list page_item) : Prop :=
  let folder_path := text_input S "Folder Path:" "" in
  let db_name :=
    replace_char " " "_" (text_input S "Database Name:" "pdf_summarization3") in
  let collection_name :=
    replace_char " " "_" (text_input S "Collection Name:" "summaries") in
  if button S "Process PDFs" then
    if path_exists S folder_path then
      exists (tr : list effect) (res : outcome unit),
        run_pipeline N W folder_path db_name collection_name tr res
        /\ page
           = form ++ map Shown (filter outlives_workers tr)
             ++ [Shown
                   match res with
                   | Returns _ => StSuccess "PDFs processed successfully!"
                   | Raises e => StError ("An error occurred: " ++ str_exn e)
                   end]
    else page = form ++ [Shown (StError "The folder path does not exist.")]
  else page = form.

(** A user who typed the folder [docs], kept the default names and
    clicked the button. *)
Definition clicked_docs : session :=
  {| text_input := fun label default =>
       if String.eqb label "Folder Path:" then "docs"
       else if String.eqb label "Database Name:" then "pdf summaries"
       else default;
     button := fun _ => true;
     path_exists := fun folder_path =>
       String.eqb folder_path "docs" || String.eqb folder_path "empty" |}.

(** * Properties *)

(** ** Strings *)

Lemma split_word_then_space (w r : string) :
  is_word w = true ->
  split (w ++ String " " r) = w :: split r.
Proof.
  induction w as [|c w IH]; [discriminate|].
  unfold is_word; simpl. intros H.
  apply andb_prop in H as [Hc Hw].
  apply negb_true_iff in Hc. rewrite Hc.
  destruct w as [|c' w'].
  - reflexivity.
  - assert (Hw' : is_word (String c' w') = true) by exact Hw.
    rewrite (IH Hw').
    simpl in Hw. apply andb_prop in Hw as [Hc' _].
    simpl. now rewrite Hc'.
Qed.

Lemma split_single_word (w : string) :
  is_word w = true -> split w = [w].
Proof.
  induction w as [|c w IH]; [discriminate|].
  unfold is_word; simpl. intros H.
  apply andb_prop in H as [Hc Hw].
  apply negb_true_iff in Hc. rewrite Hc.
  destruct w as [|c' w'].
  - reflexivity.
  - assert (Hw' : is_word (String c' w') = true) by exact Hw.
    rewrite (IH Hw').
    simpl in Hw. apply andb_prop in Hw as [Hc' _].
    simpl. now rewrite Hc'.
Qed.

Lemma split_gives_words (s : string) : Forall (fun w => is_word w = true) (split s).
Proof.
  induction s as [|c r IH]; simpl; [constructor|].
  destruct (isspace_char c) eqn:Hc; [exact IH|].
  assert (Hone : is_word (String c EmptyString) = true)
    by (unfold is_word; simpl; now rewrite Hc).
  destruct (starts_word r).
  - destruct (split r) as [|w ws].
    + now constructor.
    + inversion IH as [|? ? Hw Hws]; subst. constructor; [|exact Hws].
      unfold is_word in *. simpl. rewrite Hc. simpl.
      now apply andb_prop in Hw as [_ ->].
  - now constructor.
Qed.

(** Splitting the single-space join of words gives the words back. *)
Lemma split_join_words (ws : list string) :
  Forall (fun w => is_word w = true) ws ->
  split (join " " ws) = ws.
Proof.
  induction 1 as [|w ws Hw Hws IH]; [reflexivity|].
  unfold join in *. simpl.
  destruct ws as [|w' ws'].
  - now apply split_single_word.
  - change (w ++ " " ++ String.concat " " (w' :: ws'))%string
      with (w ++ String " " (String.concat " " (w' :: ws')))%string.
    rewrite split_word_then_space by exact Hw.
    now rewrite IH.
Qed.

Lemma filter_twice {A : Type} (p : A -> bool) (l : list A) :
  filter p (filter p l) = filter p l.
Proof.
  induction l as [|x l IH]; simpl; [reflexivity|].
  destruct (p x) eqn:Hx; simpl; [rewrite Hx; now f_equal|exact IH].
Qed.

Lemma Forall_filter_keep {A : Type} (P : A -> Prop) (p : A -> bool) (l : list A) :
  Forall P l -> Forall P (filter p l).
Proof.
  induction 1 as [|x l Hx Hl IH]; simpl; [constructor|].
  destruct (p x); [now constructor|exact IH].
Qed.

Lemma rstrip_blank (s : string) :
  is_empty (rstrip s) = all_chars isspace_char s.
Proof.
  induction s as [|c r IH]; simpl; [reflexivity|].
  destruct (rstrip r) eqn:Hr; simpl in IH.
  - rewrite <- IH. now destruct (isspace_char c).
  - rewrite <- IH. simpl. now rewrite andb_false_r.
Qed.

(** [not text.strip()] holds exactly for the empty and the
    whitespace-only texts. *)
Lemma strip_blank (s : string) :
  is_empty (strip s) = all_chars isspace_char s.
Proof.
  unfold strip. rewrite rstrip_blank.
  induction s as [|c r IH]; simpl; [reflexivity|].
  destruct (isspace_char c) eqn:Hc; simpl; [exact IH|].
  now rewrite Hc.
Qed.

Lemma lower_char_idempotent (c : ascii) : lower_char (lower_char c) = lower_char c.
Proof.
  destruct c as [[] [] [] [] [] [] [] []]; reflexivity.
Qed.

Lemma lower_idempotent (s : string) : lower (lower s) = lower s.
Proof.
  induction s as [|c r IH]; simpl; [reflexivity|].
  now rewrite lower_char_idempotent, IH.
Qed.

Lemma chars_lower (s : string) : chars (lower s) = map lower_char (chars s).
Proof.
  induction s as [|c r IH]; simpl; [reflexivity|now rewrite IH].
Qed.

(** A string all of whose characters are lower-case is its own lower-case
    form. *)
Lemma lower_fixed (s : string) :
  (forall c, In c (chars s) -> lower_char c = c) -> lower s = s.
Proof.
  induction s as [|c r IH]; simpl; intros H; [reflexivity|].
  rewrite (H c) by now left.
  f_equal. apply IH. intros c' Hc'. apply H. now right.
Qed.

Lemma split_chars (s w : string) (c : ascii) :
  In w (split s) -> In c (chars w) -> In c (chars s) /\ isspace_char c = false.
Proof.
  revert w. induction s as [|a r IH]; simpl; intros w Hw Hc; [contradiction|].
  destruct (isspace_char a) eqn:Ha.
  - destruct (IH w Hw Hc); auto.
  - destruct (starts_word r).
    + destruct (split r) as [|w0 ws] eqn:Hr.
      * destruct Hw as [<-|[]]. simpl in Hc. destruct Hc as [<-|[]]. auto.
      * destruct Hw as [<-|Hw].
        -- simpl in Hc. destruct Hc as [<-|Hc]; [auto|].
           destruct (IH w0 (or_introl eq_refl) Hc); auto.
        -- destruct (IH w (or_intror Hw) Hc); auto.
    + destruct Hw as [<-|Hw].
      * simpl in Hc. destruct Hc as [<-|[]]. auto.
      * destruct (IH w Hw Hc); auto.
Qed.

(** ** Counters *)

Lemma Counter_get_incr (c : Counter.t) (w' w : string) :
  Counter.get (Counter.incr c w') w
  = Counter.get c w + (if String.eqb w' w then 1 else 0).
Proof.
  induction c as [|[k n] c IH]; simpl.
  - now destruct (String.eqb w' w).
  - destruct (String.eqb k w') eqn:Hk; simpl.
    + apply String.eqb_eq in Hk. subst w'.
      destruct (String.eqb k w); lia.
    + destruct (String.eqb k w) eqn:Hkw; [|exact IH].
      apply String.eqb_eq in Hkw. subst w.
      rewrite String.eqb_sym, Hk. lia.
Qed.

Lemma Counter_get_fold (ws : list string) (c : Counter.t) (w : string) :
  Counter.get (fold_left Counter.incr ws c) w
  = Counter.get c w + count_occ string_dec ws w.
Proof.
  revert c. induction ws as [|x ws IH]; intros c; simpl; [lia|].
  rewrite IH, Counter_get_incr.
  destruct (string_dec x w) as [-> |Hne].
  - rewrite String.eqb_refl. lia.
  - apply String.eqb_neq in Hne. rewrite Hne. lia.
Qed.

(** Looking a word up in [Counter(ws)] counts its occurrences in [ws]. *)
Lemma Counter_get_of_list (ws : list string) (w : string) :
  Counter.get (Counter.of_list ws) w = count_occ string_dec ws w.
Proof.
  unfold Counter.of_list. now rewrite Counter_get_fold.
Qed.

Lemma Counter_incr_keys (c : Counter.t) (w k : string) :
  In k (map fst (Counter.incr c w)) <-> In k (map fst c) \/ k = w.
Proof.
  induction c as [|[k0 n] c IH]; simpl.
  - intuition.
  - destruct (String.eqb k0 w) eqn:Hk; simpl.
    + apply String.eqb_eq in Hk. subst. intuition.
    + rewrite IH. intuition.
Qed.

Lemma Counter_incr_NoDup (c : Counter.t) (w : string) :
  NoDup (map fst c) -> NoDup (map fst (Counter.incr c w)).
Proof.
  induction c as [|[k n] c IH]; simpl; intros H.
  - constructor; [intros []|constructor].
  - inversion H as [|? ? Hk Hc]; subst.
    destruct (String.eqb k w) eqn:Hkw; simpl.
    + now constructor.
    + constructor; [|now apply IH].
      rewrite Counter_incr_keys. intros [Hin| ->]; [contradiction|].
      now rewrite String.eqb_refl in Hkw.
Qed.

Lemma Counter_of_list_NoDup (ws : list string) :
  NoDup (map fst (Counter.of_list ws)).
Proof.
  unfold Counter.of_list.
  assert (H : forall c, NoDup (map fst c) ->
                        NoDup (map fst (fold_left Counter.incr ws c))).
  { induction ws as [|x ws IH]; intros c Hc; simpl; [exact Hc|].
    apply IH. now apply Counter_incr_NoDup. }
  apply H. constructor.
Qed.

Lemma Counter_get_item (c : Counter.t) (k : string) (n : nat) :
  NoDup (map fst c) -> In (k, n) c -> Counter.get c k = n.
Proof.
  induction c as [|[k0 n0] c IH]; simpl; intros Hnd Hin; [contradiction|].
  inversion Hnd as [|? ? Hk0 Hc]; subst.
  destruct Hin as [Heq|Hin].
  - injection Heq as Hk Hn. subst k0 n0. now rewrite String.eqb_refl.
  - destruct (String.eqb k0 k) eqn:Hk; [|now apply IH].
    apply String.eqb_eq in Hk. subst k0.
    exfalso. apply Hk0. now apply (in_map fst) in Hin.
Qed.

(** Every item of [Counter(ws)] carries the number of occurrences of its
    word, and that number is positive. *)
Lemma Counter_item_count (ws : list string) (k : string) (n : nat) :
  In (k, n) (Counter.items (Counter.of_list ws)) ->
  n = count_occ string_dec ws k.
Proof.
  intros Hin. rewrite <- Counter_get_of_list. symmetry.
  apply Counter_get_item; [apply Counter_of_list_NoDup|exact Hin].
Qed.

Lemma Counter_keys_fold (ws : list string) (c : Counter.t) (k : string) :
  In k (map fst (fold_left Counter.incr ws c)) <-> In k (map fst c) \/ In k ws.
Proof.
  revert c. induction ws as [|x ws IH]; intros c; simpl; [intuition|].
  rewrite IH, Counter_incr_keys. intuition.
Qed.

Lemma Counter_item_word (ws : list string) (k : string) (n : nat) :
  In (k, n) (Counter.items (Counter.of_list ws)) -> In k ws.
Proof.
  intros Hin. apply (in_map fst) in Hin. simpl in Hin.
  unfold Counter.items, Counter.of_list in Hin.
  apply Counter_keys_fold in Hin as [[]|H]. exact H.
Qed.

(** ** Sorting *)

Section Sorting.

Context {A : Type} (key : A -> nat).

Lemma insert_desc_perm (x : A) (l : list A) :
  Permutation (insert_desc key x l) (x :: l).
Proof.
  induction l as [|y l IH]; simpl; [reflexivity|].
  destruct (key y <=? key x); [reflexivity|].
  rewrite IH. apply perm_swap.
Qed.

Lemma sorted_reverse_perm (l : list A) :
  Permutation (sorted_reverse key l) l.
Proof.
  induction l as [|x l IH]; simpl; [reflexivity|].
  rewrite insert_desc_perm. now constructor.
Qed.

Lemma insert_desc_sorted (x : A) (l : list A) :
  StronglySorted (desc key) l -> StronglySorted (desc key) (insert_desc key x l).
Proof.
  induction 1 as [|y l Hl IH Hy]; simpl.
  - constructor; constructor.
  - destruct (key y <=? key x) eqn:Hyx.
    + apply Nat.leb_le in Hyx.
      constructor; [now constructor|].
      constructor; [exact Hyx|].
      eapply Forall_impl; [|exact Hy].
      unfold desc. intros a Ha. lia.
    + apply Nat.leb_gt in Hyx.
      constructor; [exact IH|].
      eapply Permutation_Forall.
      * symmetry. apply insert_desc_perm.
      * constructor; [unfold desc; lia|exact Hy].
Qed.

(** The result of [sorted(..., reverse=True)] is in non-increasing key
    order. *)
Lemma sorted_reverse_sorted (l : list A) :
  StronglySorted (desc key) (sorted_reverse key l).
Proof.
  induction l as [|x l IH]; simpl; [constructor|].
  now apply insert_desc_sorted.
Qed.

Lemma insert_desc_stable (v : nat) (x : A) (l : list A) :
  filter (fun a => key a =? v) (insert_desc key x l)
  = filter (fun a => key a =? v) (x :: l).
Proof.
  induction l as [|y l IH]; [reflexivity|].
  cbn [insert_desc].
  destruct (key y <=? key x) eqn:Hyx; [reflexivity|].
  apply Nat.leb_gt in Hyx.
  cbn [filter] in *. rewrite IH.
  destruct (key x =? v) eqn:Hx; [|reflexivity].
  apply Nat.eqb_eq in Hx.
  destruct (key y =? v) eqn:Hy; [|reflexivity].
  apply Nat.eqb_eq in Hy. lia.
Qed.

(** Stability: the elements of one key keep their relative order. *)
Lemma sorted_reverse_stable (v : nat) (l : list A) :
  filter (fun a => key a =? v) (sorted_reverse key l)
  = filter (fun a => key a =? v) l.
Proof.
  induction l as [|x l IH]; [reflexivity|].
  cbn [sorted_reverse fold_right].
  rewrite insert_desc_stable.
  cbn [filter]. fold (sorted_reverse key l). now rewrite IH.
Qed.

Lemma In_firstn (n : nat) (l : list A) (a : A) :
  In a (firstn n l) -> In a l.
Proof.
  revert n. induction l as [|y l IH]; intros [|n]; simpl; try contradiction.
  intros [-> |H]; [now left|right; eauto].
Qed.

Lemma StronglySorted_firstn (R : A -> A -> Prop) (n : nat) (l : list A) :
  StronglySorted R l -> StronglySorted R (firstn n l).
Proof.
  intros H. revert n. induction H as [|x l Hl IH Hx]; intros [|n]; simpl;
    try constructor.
  - apply IH.
  - rewrite Forall_forall in *. intros a Ha. apply Hx.
    now apply In_firstn in Ha.
Qed.

Lemma StronglySorted_filter (R : A -> A -> Prop) (p : A -> bool) (l : list A) :
  StronglySorted R l -> StronglySorted R (filter p l).
Proof.
  induction 1 as [|x l Hl IH Hx]; simpl; [constructor|].
  destruct (p x); [|exact IH].
  constructor; [exact IH|].
  now apply Forall_filter_keep.
Qed.

(** An element of a filtered list comes from the list, with what is
    filtered before it and after it. *)
Lemma filter_eq_split (p : A -> bool) (l u w : list A) (a : A) :
  filter p l = u ++ a :: w ->
  exists l1 l2, l = l1 ++ a :: l2 /\ filter p l1 = u /\ filter p l2 = w.
Proof.
  revert u. induction l as [|x l IH]; intros u H; simpl in H.
  - now destruct u.
  - destruct (p x) eqn:Hx.
    + destruct u as [|y u]; simpl in H; injection H as Hxy Hrest.
      * subst x. now exists [], l.
      * subst y. destruct (IH u Hrest) as [l1 [l2 [-> [H1 H2]]]].
        exists (x :: l1), l2. simpl. rewrite Hx, H1. auto.
    + destruct (IH u H) as [l1 [l2 [-> [H1 H2]]]].
      exists (x :: l1), l2. simpl. rewrite Hx. auto.
Qed.

Lemma filter_firstn_prefix (p : A -> bool) (n : nat) (l : list A) :
  exists rest, filter p l = filter p (firstn n l) ++ rest.
Proof.
  exists (filter p (skipn n l)).
  rewrite <- filter_app. now rewrite firstn_skipn.
Qed.

End Sorting.

(** ** Traces *)

Lemma interleaving_perm {A : Type} (ls : list (list A)) (tr : list A) :
  interleaving ls tr -> Permutation tr (List.concat ls).
Proof.
  induction 1 as [ls Hls|before after x l tr _ IH].
  - induction Hls as [|l ls -> _ IHl]; [reflexivity|exact IHl].
  - rewrite concat_app in *. simpl in *.
    rewrite IH. apply Permutation_middle.
Qed.

Lemma interleaving_in_order {A : Type} (ls finished : list (list A)) :
  Forall (fun l => l = []) finished ->
  interleaving (finished ++ ls) (List.concat ls).
Proof.
  revert finished. induction ls as [|l ls IH]; intros finished Hf; simpl.
  - constructor. now rewrite app_nil_r.
  - induction l as [|x l IHl]; simpl.
    + change (finished ++ [] :: ls) with (finished ++ [[]] ++ ls).
      rewrite app_assoc. apply IH.
      apply Forall_app. split; [exact Hf|now constructor].
    + now constructor.
Qed.

Lemma filter_perm {A : Type} (p : A -> bool) (l l' : list A) :
  Permutation l l' -> Permutation (filter p l) (filter p l').
Proof.
  induction 1 as [|x l l' _ IH|x y l|l l' l'' _ IH1 _ IH2]; simpl.
  - reflexivity.
  - destruct (p x); [now constructor|exact IH].
  - destruct (p x), (p y); try reflexivity. apply perm_swap.
  - now transitivity (filter p l').
Qed.

Lemma inserted_docs_app (tr tr' : list effect) :
  inserted_docs (tr ++ tr') = inserted_docs tr ++ inserted_docs tr'.
Proof.
  induction tr as [|e tr IH]; simpl; [reflexivity|].
  destruct e; simpl; now rewrite ?IH.
Qed.

Lemma inserted_docs_perm (tr tr' : list effect) :
  Permutation tr tr' -> Permutation (inserted_docs tr) (inserted_docs tr').
Proof.
  induction 1 as [|x l l' _ IH|x y l|l l' l'' _ IH1 _ IH2]; simpl.
  - reflexivity.
  - destruct x; [exact IH..|now constructor].
  - destruct x, y; try reflexivity. apply perm_swap.
  - now transitivity (inserted_docs l').
Qed.

(** ** The functions, case by case *)

Section Cases.

Variable N : nltk.
Variable W : world.

(** [save_to_mongo] returns normally whatever the client answers: an
    accepted write is recorded, a failure is reported with [st.error]. *)
Lemma save_to_mongo_cases (pdf_path summary : string) (keywords : list string)
    (db_name collection_name : string) :
  let doc := {| pdf_name := OsPath.splitext_root (OsPath.basename pdf_path);
                summary := summary; keywords := keywords |} in
  save_to_mongo W pdf_path summary keywords db_name collection_name
  = match insert_one W db_name collection_name doc with
    | Returns _ => ([Inserted db_name collection_name doc], Returns tt)
    | Raises e => ([StError ("Failed to save to MongoDB: " ++ str_exn e)], Returns tt)
    end.
Proof.
  unfold save_to_mongo, try_except, bind, call, emit, st_error. simpl.
  now destruct (insert_one W db_name collection_name _).
Qed.

Lemma process_single_pdf_cases (pdf_path db_name collection_name : string) :
  process_single_pdf N W pdf_path db_name collection_name
  = match pdfplumber_open W pdf_path with
    | Raises e => ([StError (error_processing_msg pdf_path e)], Returns tt)
    | Returns pages =>
        let doc := document_record N pdf_path pages in
        (StWrite (processing_msg pdf_path (List.length pages))
           :: trace (save_to_mongo W pdf_path (summary doc) (keywords doc)
                       db_name collection_name)
           ++ [StWrite (saved_msg pdf_path)],
         Returns tt)
    end.
Proof.
  unfold process_single_pdf, extract_text_from_pdf, call.
  destruct (pdfplumber_open W pdf_path) as [pages|e]; [|reflexivity].
  cbn [bind ret app try_except st_write emit].
  unfold document_record. cbn [summary keywords].
  rewrite save_to_mongo_cases.
  now destruct (insert_one W db_name collection_name _).
Qed.

End Cases.

(** ** Stopword filter *)

(** C5. [remove_stopwords] is idempotent: filtering an already filtered
    text returns it unchanged, for every text and every stopword list. *)
Theorem remove_stopwords_idempotent (N : nltk) (t : string) :
  remove_stopwords N (remove_stopwords N t) = remove_stopwords N t.
Proof.
  unfold remove_stopwords, drop_stopwords.
  rewrite split_join_words.
  - now rewrite filter_twice.
  - apply Forall_filter_keep, split_gives_words.
Qed.

(** ** Summarizer *)

Lemma custom_summarization_unfold (N : nltk) (text : string) (k : nat) :
  custom_summarization N text k
  = if all_chars isspace_char text then ""
    else join " " (firstn k (ranked_sentences N text)).
Proof.
  unfold custom_summarization. now rewrite strip_blank.
Qed.

(** C2, as stated, fails: punctuation tokens are words of the table like
    any other token and contribute their frequency. In the text below the
    token [!] is not alphabetic, the table counts it twice, and it brings
    2 of the 4 points of the first sentence. *)
Lemma punctuation_token_contributes_its_frequency :
  let text := "Dogs bark! Cats purr!" in
  let table := word_freq english text in
  word_tokenize english (lower "Dogs bark!") = ["dogs"; "bark"; "!"]
  /\ isalpha "!" = false
  /\ Counter.get table "!" = 2
  /\ sentence_score english table "Dogs bark!" = 4
  /\ sentence_score english table "Dogs bark!"
     <> Counter.get table "dogs" + Counter.get table "bark" + 0.
Proof.
  repeat split; try (vm_compute; reflexivity).
  vm_compute. discriminate.
Qed.

(** C2, amended. The score by which [custom_summarization] ranks a
    sentence is the sum, over the tokens of the lower-cased sentence, of
    the number of times the token occurs among the tokens of the
    lower-cased whole text. Every token that occurs there, a punctuation
    token included, contributes that number, which is not 0; a token
    contributes 0 exactly when it does not occur there. *)
Theorem sentence_score_sums_frequencies (N : nltk) (text sentence : string) :
  let words := word_tokenize N (lower text) in
  let table := word_freq N text in
  ranked_sentences N text
    = sorted_reverse (sentence_score N table) (sent_tokenize N text)
  /\ sentence_score N table sentence
     = list_sum (map (count_occ string_dec words)
                     (word_tokenize N (lower sentence)))
  /\ (forall w : string,
        Counter.get table w
        = if in_dec string_dec w words then count_occ string_dec words w else 0)
  /\ (forall w : string, Counter.get table w = 0 <-> ~ In w words).
Proof.
  intros words table. split; [reflexivity|].
  assert (Hget : forall w, Counter.get table w = count_occ string_dec words w)
    by (intros w; apply Counter_get_of_list).
  split; [|split].
  - unfold sentence_score. f_equal. apply map_ext. exact Hget.
  - intros w. rewrite Hget.
    destruct (in_dec string_dec w words) as [_|Hout]; [reflexivity|].
    now apply count_occ_not_In.
  - intros w. rewrite Hget. symmetry. apply count_occ_not_In.
Qed.

(** C6. [custom_summarization] returns the empty string for an empty or
    whitespace-only text. Otherwise it returns the single-space join of
    the first [k] ranked sentences: at most [k] of them, each one a
    sentence of the text, and all the sentences, in ranked order, when
    [k] is at least their number. *)
Theorem custom_summarization_selects_sentences (N : nltk) (t : string) (k : nat) :
  let sentences := sent_tokenize N t in
  let ranked := ranked_sentences N t in
  let picked := firstn k ranked in
  custom_summarization N t k
    = (if all_chars isspace_char t then "" else join " " picked)
  /\ List.length picked <= k
  /\ Forall (fun s => In s sentences) picked
  /\ (if List.length sentences <=? k then picked = ranked
      else List.length picked = k)
  /\ Permutation ranked sentences
  /\ StronglySorted (desc (sentence_score N (word_freq N t))) ranked.
Proof.
  intros sentences ranked picked.
  assert (Hperm : Permutation ranked sentences) by apply sorted_reverse_perm.
  split; [apply custom_summarization_unfold|].
  split; [apply firstn_le_length|].
  split.
  { apply Forall_forall. intros s Hs.
    apply In_firstn in Hs. now apply (Permutation_in _ Hperm). }
  split.
  { rewrite <- (Permutation_length Hperm).
    destruct (List.length ranked <=? k) eqn:Hk.
    - apply Nat.leb_le in Hk. now apply firstn_all2.
    - apply Nat.leb_gt in Hk. apply firstn_length_le. lia. }
  split; [exact Hperm|apply sorted_reverse_sorted].
Qed.

(** C7. The ranking of [custom_summarization] is stable: for every score
    [v], the sentences of score [v] stand in the ranking in the order they
    have in the text, and those that reach the summary are the first of
    them. So when a sentence [a] stands before a sentence [b] of the same
    score in the ranking, [a] stands before [b] in the text as well. *)
Theorem ranking_keeps_order_of_ties (N : nltk) (t : string) (k v : nat) :
  let score := sentence_score N (word_freq N t) in
  let tied := filter (fun s => score s =? v) in
  tied (ranked_sentences N t) = tied (sent_tokenize N t)
  /\ (exists rest,
        tied (sent_tokenize N t)
        = tied (firstn k (ranked_sentences N t)) ++ rest)
  /\ custom_summarization N t k
     = (if all_chars isspace_char t then ""
        else join " " (firstn k (ranked_sentences N t)))
  /\ forall (a b : string) (l1 l2 l3 : list string),
       ranked_sentences N t = l1 ++ a :: l2 ++ b :: l3 ->
       score a = v -> score b = v ->
       exists m1 m2 m3, sent_tokenize N t = m1 ++ a :: m2 ++ b :: m3.
Proof.
  intros score tied.
  assert (Hst : tied (ranked_sentences N t) = tied (sent_tokenize N t))
    by apply sorted_reverse_stable.
  split; [exact Hst|]. split; [|split].
  - rewrite <- Hst. apply filter_firstn_prefix.
  - apply custom_summarization_unfold.
  - intros a b l1 l2 l3 Hranked Ha Hb.
    rewrite Hranked in Hst. unfold tied in Hst.
    rewrite filter_app in Hst. cbn [filter] in Hst.
    rewrite filter_app in Hst. cbn [filter] in Hst.
    apply Nat.eqb_eq in Ha, Hb. rewrite Ha, Hb in Hst.
    symmetry in Hst.
    apply filter_eq_split in Hst as [m1 [rest [-> [_ Hrest]]]].
    apply filter_eq_split in Hrest as [m2 [m3 [-> _]]].
    now exists m1, m2, m3.
Qed.

Lemma ranking_keeps_order_of_ties_witness :
  ranked_sentences english "Dogs bark! Cats purr! Cats and dogs play!"
  = [] ++ "Cats and dogs play!" :: [] ++ "Dogs bark!" :: ["Cats purr!"]
  /\ exists m1 m2 m3,
       sent_tokenize english "Dogs bark! Cats purr! Cats and dogs play!"
       = m1 ++ "Dogs bark!" :: m2 ++ "Cats purr!" :: m3.
Proof.
  split; [reflexivity|].
  destruct (ranking_keeps_order_of_ties english
              "Dogs bark! Cats purr! Cats and dogs play!" 3 6)
    as [_ [_ [_ Hties]]].
  apply (Hties "Dogs bark!" "Cats purr!" ["Cats and dogs play!"] [] []);
    reflexivity.
Defined.

(** ** Keyword extractor *)

Lemma sorted_items_to_words (f : string -> nat) (l : list (string * nat)) :
  Forall (fun item => snd item = f (fst item)) l ->
  StronglySorted (desc snd) l ->
  StronglySorted (desc f) (map fst l).
Proof.
  intros Hf Hs. induction Hs as [|item l Hl IH Hitem]; simpl; [constructor|].
  inversion Hf as [|? ? Hi Hrest]; subst.
  constructor; [now apply IH|].
  apply Forall_map. rewrite Forall_forall in *.
  intros item' Hin. unfold desc in *.
  rewrite <- Hi, <- (Hrest item' Hin). now apply Hitem.
Qed.

(** The items [extract_keywords] keeps come from the frequency table. *)
Lemma kept_items_in_table (N : nltk) (text : string) (n : nat) (item : string * nat) :
  In item (filter (fun item => isalpha (fst item))
                  (most_common n (keyword_freq N text))) ->
  In item (Counter.items (Counter.of_list (keyword_tokens N text)))
  /\ isalpha (fst item) = true.
Proof.
  intros Hin. apply filter_In in Hin as [Hin Halpha]. split; [|exact Halpha].
  unfold most_common in Hin. apply In_firstn in Hin.
  eapply Permutation_in; [apply sorted_reverse_perm|exact Hin].
Qed.

(** What [extract_keywords] guarantees for every tokenizer: at most
    [top_n] keywords, all alphabetic, in non-increasing order of their
    frequency among the tokens counted. *)
Lemma extract_keywords_ranked (N : nltk) (text : string) (n : nat) :
  let kws := extract_keywords N text n in
  let freq := count_occ string_dec (keyword_tokens N text) in
  List.length kws <= n
  /\ Forall (fun w => isalpha w = true) kws
  /\ StronglySorted (desc freq) kws.
Proof.
  unfold extract_keywords.
  destruct (is_empty (strip text)); cbn zeta.
  { repeat split; simpl; [lia|constructor|constructor]. }
  set (kept := filter _ _).
  assert (Hkept : forall item, In item kept ->
            In item (Counter.items (Counter.of_list (keyword_tokens N text)))
            /\ isalpha (fst item) = true)
    by (intros item; apply kept_items_in_table).
  split; [|split].
  - rewrite length_map. unfold kept.
    etransitivity; [apply filter_length_le|].
    unfold most_common. apply firstn_le_length.
  - apply Forall_map, Forall_forall. intros item Hin. now apply Hkept.
  - apply sorted_items_to_words.
    + apply Forall_forall. intros [w f] Hin. simpl.
      now apply Counter_item_count, Hkept.
    + unfold kept, most_common.
      apply StronglySorted_filter, StronglySorted_firstn, sorted_reverse_sorted.
Qed.

(** C1, at the input on which the code departs from the claim. The text
    [Who is it?] splits on whitespace into [Who], [is] and [it?]; the
    last one is not a stopword, so it survives the filter, and
    [word_tokenize] then separates [it] from the question mark. The
    keyword returned is the stopword [it]. *)
Theorem extract_keywords_returns_stopword :
  extract_keywords english "Who is it?" 5 = ["it"]
  /\ is_stopword english "it" = true
  /\ remove_stopwords english "Who is it?" = "it?"
  /\ extract_keywords english (remove_stopwords english "Who is it?") 5 = ["it"].
Proof.
  repeat split; vm_compute; reflexivity.
Qed.

(** C9. Every keyword returned by [extract_keywords] is its own
    lower-case form, whatever the casing of the text, for every tokenizer
    whose alphabetic tokens are made of characters of the tokenized
    text. *)
Theorem extract_keywords_lowercase (N : nltk) (text : string) (n : nat) :
  tokens_from_text N ->
  Forall (fun w => lower w = w) (extract_keywords N text n).
Proof.
  intros Htok. unfold extract_keywords.
  destruct (is_empty (strip text)); [constructor|].
  apply Forall_map, Forall_forall. intros [w f] Hin. simpl.
  apply kept_items_in_table in Hin as [Hin Halpha]. simpl in Halpha.
  apply Counter_item_word in Hin. unfold keyword_tokens in Hin.
  apply lower_fixed. intros c Hc.
  specialize (Htok _ _ c Hin Halpha Hc).
  rewrite chars_lower in Htok. apply in_map_iff in Htok as [c' [<- _]].
  apply lower_char_idempotent.
Qed.

Lemma pad_marks_chars (s : string) (c : ascii) :
  In c (chars (pad_marks s)) -> isspace_char c = false -> In c (chars s).
Proof.
  induction s as [|a r IH]; simpl; [tauto|]. intros Hin Hc.
  destruct (is_mark a); simpl in Hin.
  - destruct Hin as [<-|[<-|[<-|Hin]]]; try discriminate; auto.
  - destruct Hin as [<-|Hin]; auto.
Qed.

Lemma english_tokens_from_text : tokens_from_text english.
Proof.
  intros s t c Hin _ Hc. simpl in Hin. unfold mark_word_tokenize in Hin.
  destruct (split_chars _ _ _ Hin Hc) as [Hpad Hsp].
  now apply pad_marks_chars.
Qed.

Lemma extract_keywords_lowercase_witness :
  tokens_from_text english
  /\ Forall (fun w => lower w = w)
            (extract_keywords english "Cats CHASE Dogs (and cats)!" 5).
Proof.
  split; [exact english_tokens_from_text|].
  apply (extract_keywords_lowercase english "Cats CHASE Dogs (and cats)!" 5).
  exact english_tokens_from_text.
Defined.

(** ** Result sink *)

(** C10. [save_to_mongo] returns normally for every input and every answer
    of the persistence client: an exception of the client, of whatever
    kind, is not propagated; it only shows as one [st.error] message, and
    nothing is stored. *)
Theorem save_to_mongo_swallows_failures (W : world)
    (pdf_path summary : string) (keywords : list string)
    (db_name collection_name : string) :
  let doc := {| pdf_name := OsPath.splitext_root (OsPath.basename pdf_path);
                summary := summary; keywords := keywords |} in
  let saving := save_to_mongo W pdf_path summary keywords db_name collection_name in
  result saving = Returns tt
  /\ trace saving
     = match insert_one W db_name collection_name doc with
       | Returns _ => [Inserted db_name collection_name doc]
       | Raises e => [StError ("Failed to save to MongoDB: " ++ str_exn e)]
       end.
Proof.
  intros doc saving. unfold saving. rewrite save_to_mongo_cases.
  fold doc. now destruct (insert_one W db_name collection_name doc).
Qed.

(** ** One document *)

(** C3, at an input on which the code departs from the claim. The store
    cannot be reached: [insert_one] raises, [save_to_mongo] reports
    [Failed to save to MongoDB] and returns normally, and the task goes
    on to write [Saved summary and keywords] for a document that was not
    saved. The other failure of a task, a file that cannot be read, ends
    with the error line alone. *)
Lemma saved_notification_after_failed_persist :
  let doc := document_record english "docs/A.pdf"
               [Some "Cats are great! "; None; Some "Who is it?"] in
  insert_one offline_world "pdfs" "summaries" doc = Raises connection_refused
  /\ result (save_to_mongo offline_world "docs/A.pdf" (summary doc) (keywords doc)
               "pdfs" "summaries") = Returns tt
  /\ process_single_pdf english offline_world "docs/A.pdf" "pdfs" "summaries"
     = ([StWrite "Processing 'A.pdf' (3 pages)";
         StError "Failed to save to MongoDB: localhost:27017: Connection refused";
         StWrite "Saved summary and keywords for 'A.pdf'"],
        Returns tt)
  /\ process_single_pdf english offline_world "docs/B.pdf" "pdfs" "summaries"
     = ([StError "Error processing 'B.pdf': No /Root object! - Is this really a PDF?"],
        Returns tt).
Proof.
  repeat split; vm_compute; reflexivity.
Qed.

(** ** Batch orchestrator *)

(** Running the tasks one after the other is one of the runs of
    [run_pipeline]. *)
Lemma run_pipeline_in_order_is_run (N : nltk) (W : world)
    (folder_path db_name collection_name : string) :
  let run := run_pipeline_in_order N W folder_path db_name collection_name in
  run_pipeline N W folder_path db_name collection_name (trace run) (result run).
Proof.
  unfold run_pipeline, run_pipeline_in_order.
  destruct (listdir W folder_path) as [names|e]; [|now split].
  destruct (pdf_files_of names) as [|f fs]; [now split|].
  split; [|reflexivity].
  apply (interleaving_in_order _ []). constructor.
Qed.

Lemma task_succeeds (N : nltk) (W : world) (pdf_path db_name collection_name : string)
    (pages : list (option string)) :
  pdfplumber_open W pdf_path = Returns pages ->
  (forall doc, insert_one W db_name collection_name doc = Returns tt) ->
  process_single_pdf N W pdf_path db_name collection_name
  = ([StWrite (processing_msg pdf_path (List.length pages));
      Inserted db_name collection_name (document_record N pdf_path pages);
      StWrite (saved_msg pdf_path)],
     Returns tt).
Proof.
  intros Hopen Hstore.
  rewrite process_single_pdf_cases, Hopen. cbn zeta.
  rewrite save_to_mongo_cases, Hstore. reflexivity.
Qed.

Lemma task_fails (N : nltk) (W : world) (pdf_path db_name collection_name : string)
    (e : exn) :
  pdfplumber_open W pdf_path = Raises e ->
  process_single_pdf N W pdf_path db_name collection_name
  = ([StError (error_processing_msg pdf_path e)], Returns tt).
Proof.
  intros Hopen. now rewrite process_single_pdf_cases, Hopen.
Qed.

(** C4. Batch isolation. In a folder whose PDFs are [A], [B] and [C],
    where opening [B] raises and the two others can be read and stored,
    [run_pipeline] has a run, and every run, however the pool interleaves
    the three tasks, returns normally, stores the records of [A] and [C]
    and no other, emits their saved notifications, and reports exactly
    one error, the one of [B]: its effects are those of the three tasks
    run alone. *)
Theorem batch_isolation (N : nltk) (W : world)
    (folder_path db_name collection_name : string)
    (names : list string) (A B C : string)
    (pagesA pagesC : list (option string)) (e : exn) :
  let path := OsPath.join folder_path in
  listdir W folder_path = Returns names ->
  pdf_files_of names = [A; B; C] ->
  pdfplumber_open W (path A) = Returns pagesA ->
  pdfplumber_open W (path B) = Raises e ->
  pdfplumber_open W (path C) = Returns pagesC ->
  (forall doc, insert_one W db_name collection_name doc = Returns tt) ->
  (exists tr res, run_pipeline N W folder_path db_name collection_name tr res)
  /\ forall tr res,
       run_pipeline N W folder_path db_name collection_name tr res ->
       res = Returns tt
       /\ Permutation (inserted_docs tr)
            [document_record N (path A) pagesA; document_record N (path C) pagesC]
       /\ filter is_error tr = [StError (error_processing_msg (path B) e)]
       /\ In (StWrite (saved_msg (path A))) tr
       /\ In (StWrite (saved_msg (path C))) tr
       /\ Permutation tr
            (trace (process_single_pdf N W (path A) db_name collection_name)
             ++ trace (process_single_pdf N W (path B) db_name collection_name)
             ++ trace (process_single_pdf N W (path C) db_name collection_name)).
Proof.
  intros path Hdir Hpdfs HA HB HC Hstore. split.
  { eexists. eexists. apply run_pipeline_in_order_is_run. }
  intros tr res Hrun. unfold run_pipeline in Hrun.
  rewrite Hdir, Hpdfs in Hrun. cbn [submitted map] in Hrun.
  fold path in Hrun.
  rewrite (task_succeeds N W (path A) _ _ pagesA HA Hstore) in *.
  rewrite (task_fails N W (path B) _ _ e HB) in *.
  rewrite (task_succeeds N W (path C) _ _ pagesC HC Hstore) in *.
  destruct Hrun as [Hmix ->].
  apply interleaving_perm in Hmix. cbn in Hmix.
  split; [reflexivity|].
  split; [exact (inserted_docs_perm _ _ Hmix)|].
  split.
  { apply (filter_perm is_error) in Hmix. cbn in Hmix.
    symmetry in Hmix. now apply Permutation_length_1_inv in Hmix. }
  split; [|split].
  - eapply Permutation_in; [symmetry; exact Hmix|]. cbn. tauto.
  - eapply Permutation_in; [symmetry; exact Hmix|]. cbn. tauto.
  - exact Hmix.
Qed.

Lemma batch_isolation_witness :
  pdf_files_of ["A.pdf"; "B.pdf"; "notes.txt"; "C.pdf"] = ["A.pdf"; "B.pdf"; "C.pdf"]
  /\ forall tr res,
       run_pipeline english docs_world "docs" "pdfs" "summaries" tr res ->
       res = Returns tt
       /\ filter is_error tr
          = [StError "Error processing 'B.pdf': No /Root object! - Is this really a PDF?"].
Proof.
  split; [reflexivity|].
  intros tr res Hrun.
  destruct (batch_isolation english docs_world "docs" "pdfs" "summaries"
              ["A.pdf"; "B.pdf"; "notes.txt"; "C.pdf"] "A.pdf" "B.pdf" "C.pdf"
              [Some "Cats are great! "; None; Some "Who is it?"]
              [Some "Dogs bark! Dogs and cats play!"] not_a_pdf
              eq_refl eq_refl eq_refl eq_refl eq_refl (fun _ => eq_refl))
    as [_ Hall].
  destruct (Hall tr res Hrun) as [Hres [_ [Herr _]]].
  split; [exact Hres|exact Herr].
Defined.

(** C8. For an existing folder without any file ending in [.pdf],
    [run_pipeline] submits no task and has exactly one run: it returns
    normally and its whole trace is the single warning that no PDF files
    were found, so nothing is stored. *)
Theorem empty_folder_warns_once (N : nltk) (W : world)
    (folder_path db_name collection_name : string) (names : list string) :
  listdir W folder_path = Returns names ->
  pdf_files_of names = [] ->
  submitted N W folder_path db_name collection_name (pdf_files_of names) = []
  /\ run_pipeline N W folder_path db_name collection_name
       [StWarning "No PDF files found in the folder."] (Returns tt)
  /\ forall tr res,
       run_pipeline N W folder_path db_name collection_name tr res ->
       tr = [StWarning "No PDF files found in the folder."]
       /\ res = Returns tt
       /\ inserted_docs tr = []
       /\ filter is_error tr = [].
Proof.
  intros Hdir Hnone. unfold run_pipeline. rewrite Hdir, Hnone.
  split; [reflexivity|]. split; [now split|].
  intros tr res [-> ->]. now repeat split.
Qed.

Lemma empty_folder_warns_once_witness :
  listdir docs_world "empty" = Returns ["notes.txt"; "pdf"]
  /\ pdf_files_of ["notes.txt"; "pdf"] = []
  /\ run_pipeline english docs_world "empty" "pdfs" "summaries"
       [StWarning "No PDF files found in the folder."] (Returns tt).
Proof.
  split; [reflexivity|]. split; [reflexivity|].
  apply (empty_folder_warns_once english docs_world "empty" "pdfs" "summaries"
           ["notes.txt"; "pdf"] eq_refl eq_refl).
Defined.

(** * Further properties of the code *)

(** ** Text extraction *)

Lemma string_app_nil_r (s : string) : (s ++ "")%string = s.
Proof.
  induction s as [|c r IH]; simpl; [reflexivity|now rewrite IH].
Qed.

Lemma string_app_assoc (s t u : string) :
  ((s ++ t) ++ u)%string = (s ++ (t ++ u))%string.
Proof.
  induction s as [|c r IH]; simpl; [reflexivity|now rewrite IH].
Qed.

Lemma string_length_app (s t : string) :
  String.length (s ++ t) = String.length s + String.length t.
Proof.
  induction s as [|c r IH]; simpl; [reflexivity|now rewrite IH].
Qed.

Lemma concat_empty_sep_cons (x : string) (xs : list string) :
  String.concat "" (x :: xs) = (x ++ String.concat "" xs)%string.
Proof.
  destruct xs as [|y ys]; simpl; [now rewrite string_app_nil_r|reflexivity].
Qed.

Lemma pages_text_from (pages : list (option string)) (acc : string) :
  fold_left
    (fun text page =>
       (text ++ match page with Some t => t | None => "" end)%string)
    pages acc
  = (acc ++ String.concat ""
              (map (fun page => match page with Some t => t | None => "" end)
                   pages))%string.
Proof.
  revert acc. induction pages as [|page pages IH]; intros acc.
  - simpl. now rewrite string_app_nil_r.
  - cbn [fold_left map]. rewrite IH, concat_empty_sep_cons.
    apply string_app_assoc.
Qed.

(** X1. [extract_text_from_pdf] has no visible effect. When the file opens it
    returns the texts of the pages put end to end in page order, nothing
    between them and nothing for a page without text, together with the
    number of pages, those without text included; the length of the text
    is the sum of the lengths of the page texts. When the file does not
    open, the exception of pdfplumber is raised unchanged. *)
Theorem extract_text_from_pdf_concatenates (W : world) (pdf_path : string) :
  let page_text := fun page : option string =>
                     match page with Some t => t | None => "" end in
  match pdfplumber_open W pdf_path with
  | Raises e => extract_text_from_pdf W pdf_path = ([], Raises e)
  | Returns pages =>
      exists text,
        extract_text_from_pdf W pdf_path = ([], Returns (text, List.length pages))
        /\ text = String.concat "" (map page_text pages)
        /\ text = String.concat ""
                    (map page_text
                         (filter (fun page => match page with
                                              | Some _ => true
                                              | None => false
                                              end) pages))
        /\ String.length text
           = list_sum (map (fun page => String.length (page_text page)) pages)
  end.
Proof.
  intros page_text. unfold extract_text_from_pdf, call.
  destruct (pdfplumber_open W pdf_path) as [pages|e]; [|reflexivity].
  exists (pages_text pages). split; [reflexivity|].
  assert (Htext : pages_text pages = String.concat "" (map page_text pages)).
  { unfold pages_text. now rewrite pages_text_from. }
  rewrite Htext. split; [reflexivity|]. split.
  - clear Htext. induction pages as [|[t|] pages IH].
    + reflexivity.
    + cbn [filter map]. now rewrite !concat_empty_sep_cons, IH.
    + cbn [filter map]. now rewrite concat_empty_sep_cons, IH.
  - clear Htext. induction pages as [|page pages IH]; [reflexivity|].
    cbn [map list_sum fold_right]. rewrite concat_empty_sep_cons.
    rewrite string_length_app. now rewrite IH.
Qed.

(** ** Stopword filter, further *)

Lemma split_remove_stopwords (N : nltk) (t : string) :
  split (remove_stopwords N t) = drop_stopwords N (split t).
Proof.
  unfold remove_stopwords, drop_stopwords.
  apply split_join_words, Forall_filter_keep, split_gives_words.
Qed.

(** X2. The words of the filtered text are the words of the text that are not
    stopwords, in the same order and with their casing; no word of the
    filtered text is a stopword, and the filtered text is these words
    with one space between each two: leading, trailing and repeated
    whitespace of the text is gone. *)
Theorem remove_stopwords_words (N : nltk) (t : string) :
  split (remove_stopwords N t) = drop_stopwords N (split t)
  /\ Forall (fun w => is_stopword N w = false) (split (remove_stopwords N t))
  /\ subseq (split (remove_stopwords N t)) (split t)
  /\ remove_stopwords N t = join " " (split (remove_stopwords N t)).
Proof.
  assert (Hsplit := split_remove_stopwords N t).
  rewrite Hsplit. split; [reflexivity|].
  assert (Hjoin : remove_stopwords N t = join " " (drop_stopwords N (split t)))
    by reflexivity.
  split; [|split; [|exact Hjoin]]; clear Hjoin.
  - apply Forall_forall. intros w Hw. unfold drop_stopwords in Hw.
    apply filter_In in Hw as [_ Hw]. now apply negb_true_iff.
  - clear Hsplit. unfold drop_stopwords.
    induction (split t) as [|w ws IH]; simpl.
    + constructor.
    + destruct (negb (is_stopword N w)); now constructor.
Qed.

Lemma split_nil_blank (s : string) :
  match split s with [] => true | _ :: _ => false end
  = all_chars isspace_char s.
Proof.
  induction s as [|c r IH]; simpl; [reflexivity|].
  destruct (isspace_char c); simpl; [exact IH|].
  destruct (starts_word r); [|reflexivity].
  now destruct (split r).
Qed.

Lemma join_words_blank (ws : list string) :
  Forall (fun w => is_word w = true) ws ->
  is_empty (strip (join " " ws)) = match ws with [] => true | _ :: _ => false end.
Proof.
  intros Hws. rewrite strip_blank, <- split_nil_blank.
  now rewrite split_join_words.
Qed.

Lemma remove_stopwords_blank (N : nltk) (t : string) :
  is_empty (strip (remove_stopwords N t)) = forallb (is_stopword N) (split t).
Proof.
  unfold remove_stopwords. rewrite join_words_blank.
  - unfold drop_stopwords. induction (split t) as [|w ws IH]; simpl; [reflexivity|].
    destruct (is_stopword N w); simpl; [exact IH|reflexivity].
  - apply Forall_filter_keep, split_gives_words.
Qed.

Lemma remove_stopwords_empty (N : nltk) (t : string) :
  is_empty (remove_stopwords N t) = forallb (is_stopword N) (split t).
Proof.
  unfold remove_stopwords, drop_stopwords.
  assert (Hw := split_gives_words t).
  induction Hw as [|w ws Hw _ IH]; simpl; [reflexivity|].
  destruct (is_stopword N w); simpl; [exact IH|].
  unfold join. simpl.
  destruct w as [|c w]; [discriminate|].
  now destruct (filter _ ws).
Qed.

(** X3. The filtered text is empty exactly when every word of the text is a
    stopword, which includes the empty and the whitespace-only texts; such
    a document gets the empty summary and no keyword. *)
Theorem stopwords_only_text_yields_nothing (N : nltk) (t : string) (k n : nat) :
  let only_stopwords := forallb (is_stopword N) (split t) in
  is_empty (remove_stopwords N t) = only_stopwords
  /\ (if only_stopwords
      then custom_summarization N (remove_stopwords N t) k = ""
           /\ extract_keywords N (remove_stopwords N t) n = []
      else all_chars isspace_char (remove_stopwords N t) = false).
Proof.
  intros only_stopwords.
  assert (Hblank := remove_stopwords_blank N t). fold only_stopwords in Hblank.
  split; [apply remove_stopwords_empty|].
  - destruct only_stopwords.
    + unfold custom_summarization, extract_keywords. now rewrite Hblank.
    + now rewrite <- strip_blank.
Qed.

(** ** Keyword extractor, further *)

Lemma keyword_tokens_filtered (N : nltk) (t : string) :
  keyword_tokens N (remove_stopwords N t) = keyword_tokens N t.
Proof.
  unfold keyword_tokens. rewrite split_remove_stopwords.
  unfold drop_stopwords. now rewrite filter_twice.
Qed.

(** X4. The pipeline hands [extract_keywords] a text whose stopwords are
    already removed. That changes nothing: with a tokenizer that finds no
    token in the empty text, the keywords of the filtered text are the
    keywords of the text itself. *)
Theorem extract_keywords_of_filtered_text (N : nltk) (t : string) (n : nat) :
  word_tokenize N "" = [] ->
  extract_keywords N (remove_stopwords N t) n = extract_keywords N t n.
Proof.
  intros Hempty. unfold extract_keywords.
  change (keyword_freq N (remove_stopwords N t))
    with (Counter.of_list (keyword_tokens N (remove_stopwords N t))).
  change (keyword_freq N t) with (Counter.of_list (keyword_tokens N t)).
  rewrite keyword_tokens_filtered, remove_stopwords_blank.
  destruct (forallb (is_stopword N) (split t)) eqn:Hall.
  - destruct (is_empty (strip t)); [reflexivity|].
    assert (Hnone : keyword_tokens N t = []).
    { unfold keyword_tokens.
      assert (Hrs := remove_stopwords_empty N t). rewrite Hall in Hrs.
      unfold remove_stopwords in Hrs.
      destruct (join " " (drop_stopwords N (split t))); [exact Hempty|discriminate]. }
    rewrite Hnone. unfold most_common. simpl. now rewrite firstn_nil.
  - destruct (is_empty (strip t)) eqn:Hblank; [|reflexivity].
    rewrite strip_blank, <- split_nil_blank in Hblank.
    destruct (split t); [discriminate Hall|discriminate Hblank].
Qed.

Lemma extract_keywords_of_filtered_text_witness :
  word_tokenize english "" = []
  /\ extract_keywords english (remove_stopwords english "The cat and the CAT (it) sat!") 5
     = extract_keywords english "The cat and the CAT (it) sat!" 5.
Proof.
  split; [reflexivity|].
  apply (extract_keywords_of_filtered_text english "The cat and the CAT (it) sat!" 5).
  reflexivity.
Defined.

Lemma NoDup_keys_filter {B : Type} (p : string * B -> bool) (l : list (string * B)) :
  NoDup (map fst l) -> NoDup (map fst (filter p l)).
Proof.
  induction l as [|item l IH]; simpl; intros H; [constructor|].
  inversion H as [|? ? Hout Hl]; subst.
  destruct (p item); simpl; [|now apply IH].
  constructor; [|now apply IH].
  intros Hin. apply Hout.
  apply in_map_iff in Hin as [item' [Heq Hin]].
  apply filter_In in Hin as [Hin _].
  rewrite <- Heq. now apply in_map.
Qed.

(** X5. No keyword is returned twice, and every keyword is one of the tokens
    that were counted. *)
Theorem extract_keywords_distinct_tokens (N : nltk) (t : string) (n : nat) :
  NoDup (extract_keywords N t n)
  /\ Forall (fun w => In w (keyword_tokens N t)) (extract_keywords N t n).
Proof.
  unfold extract_keywords.
  destruct (is_empty (strip t)); [split; constructor|].
  split.
  - apply NoDup_keys_filter. unfold most_common.
    rewrite <- firstn_map.
    set (keys := map fst (sorted_reverse snd _)).
    assert (Hkeys : NoDup keys).
    { eapply Permutation_NoDup.
      - symmetry. apply Permutation_map, sorted_reverse_perm.
      - apply (Counter_of_list_NoDup (keyword_tokens N t)). }
    rewrite <- (firstn_skipn n keys) in Hkeys.
    now apply NoDup_app_remove_r in Hkeys.
  - apply Forall_map, Forall_forall. intros [w f] Hin.
    apply kept_items_in_table in Hin as [Hin _].
    now apply Counter_item_word in Hin.
Qed.

Lemma filter_filter_and {A : Type} (p q : A -> bool) (l : list A) :
  filter p (filter q l) = filter (fun x => q x && p x) l.
Proof.
  induction l as [|x l IH]; simpl; [reflexivity|].
  destruct (q x); simpl; [destruct (p x); now rewrite IH|exact IH].
Qed.

Lemma Counter_incr_key_list (c : Counter.t) (w : string) :
  map fst (Counter.incr c w)
  = if mem w (map fst c) then map fst c else map fst c ++ [w].
Proof.
  unfold mem. induction c as [|[k m] c IH]; simpl; [reflexivity|].
  rewrite (String.eqb_sym w k).
  destruct (String.eqb k w); simpl; [reflexivity|].
  rewrite IH. now destruct (existsb (String.eqb w) (map fst c)).
Qed.

Lemma mem_app (w : string) (l l' : list string) :
  mem w (l ++ l') = mem w l || mem w l'.
Proof.
  apply existsb_app.
Qed.

Lemma Counter_fold_key_list (ws : list string) (c : Counter.t) :
  map fst (fold_left Counter.incr ws c)
  = map fst c ++ filter (fun x => negb (mem x (map fst c))) (first_seen ws).
Proof.
  revert c. induction ws as [|w ws IH]; intros c; simpl.
  - now rewrite app_nil_r.
  - rewrite IH, Counter_incr_key_list.
    destruct (mem w (map fst c)) eqn:Hw; simpl.
    + f_equal. rewrite filter_filter_and. apply filter_ext. intros x.
      destruct (String.eqb w x) eqn:Hx; simpl; [|reflexivity].
      apply String.eqb_eq in Hx. subst x. now rewrite Hw.
    + rewrite <- app_assoc. simpl. f_equal. f_equal.
      rewrite filter_filter_and. apply filter_ext. intros x.
      rewrite mem_app, negb_orb, andb_comm. f_equal.
      unfold mem. simpl. rewrite orb_false_r. now rewrite String.eqb_sym.
Qed.

(** The keys of [Counter(ws)] are the words of [ws] in the order of their
    first occurrence. *)
Lemma Counter_key_list (ws : list string) :
  map fst (Counter.of_list ws) = first_seen ws.
Proof.
  unfold Counter.of_list. rewrite Counter_fold_key_list. simpl.
  induction (first_seen ws) as [|x l IH]; simpl; [reflexivity|now rewrite IH].
Qed.

Lemma Counter_items_of_list (ws : list string) :
  Counter.items (Counter.of_list ws)
  = map (fun w => (w, count_occ string_dec ws w)) (first_seen ws).
Proof.
  rewrite <- Counter_key_list.
  assert (H : forall item, In item (Counter.of_list ws) ->
                           snd item = count_occ string_dec ws (fst item)).
  { intros [w m] Hin. simpl. now apply Counter_item_count. }
  unfold Counter.items.
  induction (Counter.of_list ws) as [|[w m] c IH]; simpl; [reflexivity|].
  assert (Hm := H (w, m) (or_introl eq_refl)). simpl in Hm.
  rewrite <- Hm. f_equal.
  apply IH. intros item Hin. apply H. now right.
Qed.

(** X6. Keywords of equal frequency come in the order in which they first
    occur among the tokens: for every frequency [v], the keywords of
    frequency [v] are the first ones of the alphabetic tokens of frequency
    [v], taken in the order of first occurrence. *)
Theorem extract_keywords_ties_by_first_occurrence (N : nltk) (t : string) (n v : nat) :
  let tokens := keyword_tokens N t in
  let freq := count_occ string_dec tokens in
  exists rest,
    filter (fun w => isalpha w && (freq w =? v)) (first_seen tokens)
    = filter (fun w => freq w =? v) (extract_keywords N t n) ++ rest.
Proof.
  intros tokens freq. unfold extract_keywords.
  destruct (is_empty (strip t)); [now eexists|].
  change (keyword_freq N t) with (Counter.of_list tokens).
  unfold most_common.
  set (items := Counter.items (Counter.of_list tokens)).
  destruct (filter_firstn_prefix (fun item => snd item =? v) n (sorted_reverse snd items))
    as [rest Hrest].
  rewrite sorted_reverse_stable in Hrest.
  exists (map fst (filter (fun item => isalpha (fst item)) rest)).
  assert (Hitems : forall item, In item items -> snd item = freq (fst item)).
  { intros [w m] Hin. simpl. now apply Counter_item_count. }
  assert (Hleft :
    filter (fun w => isalpha w && (freq w =? v)) (first_seen tokens)
    = map fst (filter (fun item => isalpha (fst item))
                      (filter (fun item => snd item =? v) items))).
  { unfold items. rewrite Counter_items_of_list. fold freq.
    induction (first_seen tokens) as [|w l IH]; [reflexivity|].
    cbn [map filter fst snd].
    destruct (freq w =? v); cbn [filter fst];
      destruct (isalpha w); cbn [andb map fst]; now rewrite ?IH. }
  rewrite Hleft, Hrest, filter_app, map_app. f_equal.
  set (top := firstn n (sorted_reverse snd items)).
  assert (Htop : forall item, In item top -> snd item = freq (fst item)).
  { intros item Hin. apply Hitems. apply In_firstn in Hin.
    eapply Permutation_in; [apply sorted_reverse_perm|exact Hin]. }
  induction top as [|[w m] top IH]; [reflexivity|].
  assert (Hm : m = freq w) by (apply (Htop (w, m)); now left).
  assert (IH' := IH (fun item Hin => Htop item (or_intror Hin))).
  cbn [filter fst snd]. subst m.
  destruct (freq w =? v) eqn:Hv; cbn [filter fst];
    destruct (isalpha w); cbn [map fst filter]; rewrite ?Hv; now rewrite ?IH'.
Qed.

(** ** Summarizer, further *)

Lemma StronglySorted_app_inv {A : Type} (R : A -> A -> Prop) (l1 l2 : list A) :
  StronglySorted R (l1 ++ l2) -> Forall (fun a => Forall (R a) l2) l1.
Proof.
  induction l1 as [|a l1 IH]; simpl; intros H; [constructor|].
  inversion H as [|? ? Hl Ha]; subst.
  constructor; [|now apply IH].
  apply Forall_app in Ha. tauto.
Qed.

(** X7. The summary takes the best-scored sentences: the ranking splits into
    the sentences taken and the sentences left out, and no sentence left
    out has a higher score than a sentence taken. *)
Theorem custom_summarization_takes_top_scores (N : nltk) (t : string) (k : nat) :
  let score := sentence_score N (word_freq N t) in
  let taken := firstn k (ranked_sentences N t) in
  let left_out := skipn k (ranked_sentences N t) in
  Permutation (taken ++ left_out) (sent_tokenize N t)
  /\ Forall (fun s => Forall (fun s' => score s' <= score s) left_out) taken
  /\ custom_summarization N t k
     = (if all_chars isspace_char t then "" else join " " taken).
Proof.
  intros score taken left_out.
  assert (Hsplit : taken ++ left_out = ranked_sentences N t) by apply firstn_skipn.
  split; [rewrite Hsplit; apply sorted_reverse_perm|].
  split; [|apply custom_summarization_unfold].
  apply (StronglySorted_app_inv (desc score)).
  rewrite Hsplit. apply sorted_reverse_sorted.
Qed.

(** ** One document, further *)

(** The number of outcomes a trace reports: stored records and error
    lines. *)
Lemma outcomes_app (tr tr' : list effect) :
  List.length (inserted_docs (tr ++ tr')) + List.length (filter is_error (tr ++ tr'))
  = (List.length (inserted_docs tr) + List.length (filter is_error tr))
    + (List.length (inserted_docs tr') + List.length (filter is_error tr')).
Proof.
  rewrite inserted_docs_app, filter_app, !length_app. lia.
Qed.

Lemma task_one_outcome (N : nltk) (W : world)
    (pdf_path db_name collection_name : string) :
  let task := process_single_pdf N W pdf_path db_name collection_name in
  result task = Returns tt
  /\ List.length (inserted_docs (trace task))
     + List.length (filter is_error (trace task)) = 1.
Proof.
  intros task. unfold task. rewrite process_single_pdf_cases.
  destruct (pdfplumber_open W pdf_path) as [pages|e]; [|now split].
  cbn zeta. rewrite save_to_mongo_cases.
  destruct (insert_one W db_name collection_name _); now split.
Qed.

(** X8. [process_single_pdf] never raises, whatever pdfplumber and the store
    do, and it leaves exactly one outcome: either one stored record, which
    is the record of the pages read, or one error line, never both and
    never neither. *)
Theorem process_single_pdf_one_outcome (N : nltk) (W : world)
    (pdf_path db_name collection_name : string) :
  let task := process_single_pdf N W pdf_path db_name collection_name in
  result task = Returns tt
  /\ List.length (inserted_docs (trace task))
     + List.length (filter is_error (trace task)) = 1
  /\ match pdfplumber_open W pdf_path with
     | Raises e =>
         trace task = [StError (error_processing_msg pdf_path e)]
     | Returns pages =>
         match insert_one W db_name collection_name
                 (document_record N pdf_path pages) with
         | Returns _ =>
             inserted_docs (trace task) = [document_record N pdf_path pages]
         | Raises e =>
             filter is_error (trace task)
             = [StError ("Failed to save to MongoDB: " ++ str_exn e)]
         end
     end.
Proof.
  intros task. unfold task. rewrite process_single_pdf_cases.
  destruct (pdfplumber_open W pdf_path) as [pages|e]; [|now repeat split].
  cbn zeta. rewrite save_to_mongo_cases.
  unfold document_record. cbn [summary keywords].
  destruct (insert_one W db_name collection_name _); now repeat split.
Qed.

(** ** Batch orchestrator, further *)

Lemma submitted_results (N : nltk) (W : world)
    (folder_path db_name collection_name : string) (pdf_files : list string) :
  first_failure
    (map result (submitted N W folder_path db_name collection_name pdf_files))
  = Returns tt.
Proof.
  induction pdf_files as [|f fs IH]; [reflexivity|].
  cbn [submitted map]. 
  destruct (task_one_outcome N W (OsPath.join folder_path f)
              db_name collection_name) as [-> _].
  exact IH.
Qed.

Lemma submitted_outcomes (N : nltk) (W : world)
    (folder_path db_name collection_name : string) (pdf_files : list string) :
  let tr := List.concat
              (map trace (submitted N W folder_path db_name collection_name pdf_files)) in
  List.length (inserted_docs tr) + List.length (filter is_error tr)
  = List.length pdf_files.
Proof.
  induction pdf_files as [|f fs IH]; [reflexivity|].
  cbn [submitted map List.concat]. cbn zeta in IH.
  rewrite outcomes_app.
  destruct (task_one_outcome N W (OsPath.join folder_path f)
              db_name collection_name) as [_ ->].
  unfold submitted in IH. rewrite IH. reflexivity.
Qed.

Lemma run_pipeline_accounts_for_every_file_aux (N : nltk) (W : world)
    (folder_path db_name collection_name : string) (names : list string)
    (tr : list effect) (res : outcome unit) :
  listdir W folder_path = Returns names ->
  run_pipeline N W folder_path db_name collection_name tr res ->
  res = Returns tt
  /\ List.length (inserted_docs tr) + List.length (filter is_error tr)
     = List.length (pdf_files_of names).
Proof.
  intros Hdir Hrun. unfold run_pipeline in *. rewrite Hdir in *.
  destruct (pdf_files_of names) as [|f fs] eqn:Hfiles.
  - destruct Hrun as [-> ->]. now split.
  - destruct Hrun as [Hmix ->]. apply interleaving_perm in Hmix.
    split; [apply submitted_results|].
    rewrite (Permutation_length (inserted_docs_perm _ _ Hmix)).
    rewrite (Permutation_length (filter_perm is_error _ _ Hmix)).
    apply submitted_outcomes.
Qed.

(** X9. Once the folder is listed, [run_pipeline] cannot raise, and no
    document is dropped: in every run the stored records and the error
    lines together number the files ending in [.pdf]. The pool only
    decides the order: every run has the effects of the run that takes
    the files one after the other. *)
Theorem run_pipeline_accounts_for_every_file (N : nltk) (W : world)
    (folder_path db_name collection_name : string) (names : list string)
    (tr : list effect) (res : outcome unit) :
  listdir W folder_path = Returns names ->
  run_pipeline N W folder_path db_name collection_name tr res ->
  res = Returns tt
  /\ List.length (inserted_docs tr) + List.length (filter is_error tr)
     = List.length (pdf_files_of names)
  /\ Permutation tr
       (trace (run_pipeline_in_order N W folder_path db_name collection_name)).
Proof.
  intros Hdir Hrun. unfold run_pipeline, run_pipeline_in_order in *.
  rewrite Hdir in *.
  destruct (pdf_files_of names) as [|f fs] eqn:Hfiles.
  - destruct Hrun as [-> ->]. now repeat split.
  - destruct Hrun as [Hmix ->]. apply interleaving_perm in Hmix.
    split; [apply submitted_results|]. split; [|exact Hmix].
    rewrite (Permutation_length (inserted_docs_perm _ _ Hmix)).
    rewrite (Permutation_length (filter_perm is_error _ _ Hmix)).
    apply submitted_outcomes.
Qed.

Lemma run_pipeline_accounts_for_every_file_witness :
  listdir docs_world "docs" = Returns ["A.pdf"; "B.pdf"; "notes.txt"; "C.pdf"]
  /\ List.length
       (inserted_docs
          (trace (run_pipeline_in_order english docs_world "docs" "pdfs" "summaries")))
     + List.length
         (filter is_error
            (trace (run_pipeline_in_order english docs_world "docs" "pdfs" "summaries")))
     = 3.
Proof.
  split; [reflexivity|].
  apply (run_pipeline_accounts_for_every_file english docs_world
           "docs" "pdfs" "summaries" ["A.pdf"; "B.pdf"; "notes.txt"; "C.pdf"]
           _ _ eq_refl
           (run_pipeline_in_order_is_run english docs_world "docs" "pdfs" "summaries")).
Defined.

Lemma subseq_refl {A : Type} (l : list A) : subseq l l.
Proof.
  induction l; now constructor.
Qed.

Lemma interleaving_subseq {A : Type} (ls : list (list A)) (tr l : list A) :
  interleaving ls tr -> In l ls -> subseq l tr.
Proof.
  intros Hmix. revert l.
  induction Hmix as [ls Hls|before after x l0 tr _ IH]; intros l Hin.
  - rewrite Forall_forall in Hls. rewrite (Hls l Hin). constructor.
  - apply in_app_or in Hin as [Hin|[<-|Hin]].
    + apply subseq_skip, IH, in_or_app. now left.
    + apply subseq_take, IH, in_or_app. right. now left.
    + apply subseq_skip, IH, in_or_app. right. now right.
Qed.

(** X10. However the pool interleaves the tasks, the effects of one document
    keep their order and none is lost: the trace of its task, as it would
    be run alone, can be read from left to right in the trace of the run.
    So the progress line of a document precedes its stored record, and
    the record precedes the saved line. *)
Theorem run_pipeline_keeps_task_order (N : nltk) (W : world)
    (folder_path db_name collection_name : string) (names : list string)
    (pdf_file : string) (tr : list effect) (res : outcome unit) :
  listdir W folder_path = Returns names ->
  In pdf_file (pdf_files_of names) ->
  run_pipeline N W folder_path db_name collection_name tr res ->
  subseq
    (trace (process_single_pdf N W (OsPath.join folder_path pdf_file)
              db_name collection_name))
    tr.
Proof.
  intros Hdir Hin Hrun. unfold run_pipeline in Hrun. rewrite Hdir in Hrun.
  destruct (pdf_files_of names) as [|f fs] eqn:Hfiles; [contradiction|].
  destruct Hrun as [Hmix _].
  apply (interleaving_subseq _ _ _ Hmix).
  unfold submitted. rewrite map_map.
  apply (in_map (fun f => trace (process_single_pdf N W (OsPath.join folder_path f)
                                   db_name collection_name))).
  exact Hin.
Qed.

Lemma run_pipeline_keeps_task_order_witness :
  In "C.pdf" (pdf_files_of ["A.pdf"; "B.pdf"; "notes.txt"; "C.pdf"])
  /\ subseq
       (trace (process_single_pdf english docs_world "docs/C.pdf" "pdfs" "summaries"))
       (trace (run_pipeline_in_order english docs_world "docs" "pdfs" "summaries")).
Proof.
  assert (Hin : In "C.pdf" (pdf_files_of ["A.pdf"; "B.pdf"; "notes.txt"; "C.pdf"]))
    by (simpl; tauto).
  split; [exact Hin|].
  apply (run_pipeline_keeps_task_order english docs_world "docs" "pdfs" "summaries"
           ["A.pdf"; "B.pdf"; "notes.txt"; "C.pdf"] "C.pdf" _ _ eq_refl Hin
           (run_pipeline_in_order_is_run english docs_world "docs" "pdfs" "summaries")).
Defined.

(** ** The page *)

(** The effects of a task are progress and error lines and insertions
    under the names given. *)
Lemma task_effect_kinds (N : nltk) (W : world)
    (pdf_path db_name collection_name : string) (e : effect) :
  In e (trace (process_single_pdf N W pdf_path db_name collection_name)) ->
  match e with
  | StWrite _ | StError _ => True
  | Inserted d c _ => d = db_name /\ c = collection_name
  | StWarning _ | StSuccess _ => False
  end.
Proof.
  intros Hin. rewrite process_single_pdf_cases in Hin.
  destruct (pdfplumber_open W _) as [pages|err].
  - cbn zeta in Hin. rewrite save_to_mongo_cases in Hin.
    destruct (insert_one W db_name collection_name _); simpl in Hin;
      destruct Hin as [<-|[<-|[<-|[]]]]; simpl; auto.
  - destruct Hin as [<-|[]]. exact I.
Qed.

Lemma submitted_effect_kinds (N : nltk) (W : world)
    (folder_path db_name collection_name : string) (pdf_files : list string)
    (tr : list effect) (e : effect) :
  interleaving
    (map trace (submitted N W folder_path db_name collection_name pdf_files)) tr ->
  In e tr ->
  match e with
  | StWrite _ | StError _ => True
  | Inserted d c _ => d = db_name /\ c = collection_name
  | StWarning _ | StSuccess _ => False
  end.
Proof.
  intros Hmix Hin. apply interleaving_perm in Hmix.
  apply (Permutation_in _ Hmix) in Hin.
  apply in_concat in Hin as [task_trace [Htask Hin]].
  unfold submitted in Htask. rewrite map_map in Htask.
  apply in_map_iff in Htask as [f [<- _]].
  now apply task_effect_kinds in Hin.
Qed.

Lemma run_pipeline_effects (N : nltk) (W : world)
    (folder_path db_name collection_name : string)
    (tr : list effect) (res : outcome unit) (e : effect) :
  run_pipeline N W folder_path db_name collection_name tr res ->
  In e tr ->
  match e with
  | StSuccess _ => False
  | Inserted d c _ => d = db_name /\ c = collection_name
  | _ => True
  end.
Proof.
  intros Hrun Hin. unfold run_pipeline in Hrun.
  destruct (listdir W folder_path) as [names|err].
  - destruct (pdf_files_of names) as [|f fs].
    + destruct Hrun as [-> _]. destruct Hin as [<-|[]]. exact I.
    + destruct Hrun as [Hmix _].
      assert (H := submitted_effect_kinds _ _ _ _ _ _ _ _ Hmix Hin).
      destruct e; tauto.
  - destruct Hrun as [-> _]. destruct Hin.
Qed.

Lemma worker_effects_on_page (db_name collection_name : string) (tr : list effect) :
  (forall e, In e tr ->
     match e with
     | StWrite _ | StError _ => True
     | Inserted d c _ => d = db_name /\ c = collection_name
     | StWarning _ | StSuccess _ => False
     end) ->
  filter outlives_workers tr
  = map (Inserted db_name collection_name) (inserted_docs tr).
Proof.
  induction tr as [|e tr IH]; intros H; [reflexivity|].
  assert (He := H e (or_introl eq_refl)).
  assert (IH' := IH (fun e' Hin => H e' (or_intror Hin))).
  destruct e; cbn [filter outlives_workers inserted_docs map]; try contradiction;
    try exact IH'.
  destruct He as [-> ->]. now rewrite IH'.
Qed.

Lemma replace_char_removes (old new : ascii) (s : string) :
  old <> new -> ~ In old (chars (replace_char old new s)).
Proof.
  intros Hne. induction s as [|c r IH]; simpl; [tauto|].
  intros [Heq|Hin]; [|now apply IH].
  destruct (Ascii.eqb c old) eqn:Hc.
  - now apply Hne.
  - apply Ascii.eqb_neq in Hc. now apply Hc.
Qed.

(** X11. Whatever the user typed as database and collection names, every
    record the page shows as stored went to the names typed with each
    space replaced by an underscore, so to names without a space. *)
Theorem main_stores_under_names_without_spaces (N : nltk) (W : world) (S : session)
    (page : list page_item) (d c : string) (doc : record) :
  main N W S page ->
  In (Shown (Inserted d c doc)) page ->
  d = replace_char " " "_" (text_input S "Database Name:" "pdf_summarization3")
  /\ c = replace_char " " "_" (text_input S "Collection Name:" "summaries")
  /\ ~ In " "%char (chars d)
  /\ ~ In " "%char (chars c).
Proof.
  intros Hmain Hin. unfold main in Hmain.
  assert (Hform : ~ In (Shown (Inserted d c doc)) form).
  { unfold form. simpl. intros H.
    repeat (destruct H as [H|H]; [discriminate|]). exact H. }
  destruct (button S "Process PDFs").
  - destruct (path_exists S _).
    + destruct Hmain as [tr [res [Hrun ->]]].
      apply in_app_or in Hin as [Hin|Hin]; [contradiction|].
      apply in_app_or in Hin as [Hin|Hin].
      * apply in_map_iff in Hin as [e [Heq Hin]]. injection Heq as ->.
        apply filter_In in Hin as [Hin _].
        destruct (run_pipeline_effects _ _ _ _ _ _ _ _ Hrun Hin) as [-> ->].
        repeat split; try apply replace_char_removes; discriminate.
      * destruct Hin as [Heq|[]]. destruct res; discriminate.
    + subst page. apply in_app_or in Hin as [Hin|Hin]; [contradiction|].
      destruct Hin as [Heq|[]]. discriminate.
  - subst page. contradiction.
Qed.

Lemma main_stores_under_names_without_spaces_witness :
  exists (page : list page_item) (doc : record),
    main english docs_world clicked_docs page
    /\ In (Shown (Inserted "pdf_summaries" "summaries" doc)) page.
Proof.
  set (run := run_pipeline_in_order english docs_world "docs" "pdf_summaries" "summaries").
  set (page := form ++ map Shown (filter outlives_workers (trace run))
                 ++ [Shown (StSuccess "PDFs processed successfully!")]).
  set (doc := document_record english "docs/A.pdf"
                [Some "Cats are great! "; None; Some "Who is it?"]).
  assert (Hmain : main english docs_world clicked_docs page).
  { exists (trace run), (result run). split; [|reflexivity].
    apply (run_pipeline_in_order_is_run english docs_world "docs"). }
  assert (Hin : In (Shown (Inserted "pdf_summaries" "summaries" doc)) page).
  { vm_compute. tauto. }
  exists page, doc.
  destruct (main_stores_under_names_without_spaces english docs_world clicked_docs
              page "pdf_summaries" "summaries" doc Hmain Hin) as [_ _].
  split; [exact Hmain|exact Hin].
Defined.

(** X12. After a click, the page ends in one of three ways. If the folder
    does not exist, nothing is listed or processed and the page reports
    that the path does not exist. If it exists but cannot be listed, the
    exception of [run_pipeline] is shown as an error. Otherwise the page
    ends with the success line, preceded by the warning when the folder
    has no PDF and by nothing but the records stored when it has some:
    the progress and error lines of the documents are written by the
    workers and are not on the page, so the success line is shown alone
    even when documents failed, and the records stored may be fewer than
    the PDFs. *)
Theorem main_verdict (N : nltk) (W : world) (S : session) (page : list page_item) :
  button S "Process PDFs" = true ->
  main N W S page ->
  let folder_path := text_input S "Folder Path:" "" in
  let db_name :=
    replace_char " " "_" (text_input S "Database Name:" "pdf_summarization3") in
  let collection_name :=
    replace_char " " "_" (text_input S "Collection Name:" "summaries") in
  if path_exists S folder_path then
    match listdir W folder_path with
    | Raises e =>
        page = form ++ [Shown (StError ("An error occurred: " ++ str_exn e))]
    | Returns names =>
        exists tr,
          run_pipeline N W folder_path db_name collection_name tr (Returns tt)
          /\ page
             = form
               ++ match pdf_files_of names with
                  | [] => [Shown (StWarning "No PDF files found in the folder.")]
                  | _ :: _ =>
                      map (fun doc => Shown (Inserted db_name collection_name doc))
                          (inserted_docs tr)
                  end
               ++ [Shown (StSuccess "PDFs processed successfully!")]
          /\ List.length (inserted_docs tr) + List.length (filter is_error tr)
             = List.length (pdf_files_of names)
    end
  else page = form ++ [Shown (StError "The folder path does not exist.")].
Proof.
  intros Hclick Hmain. unfold main in Hmain. rewrite Hclick in Hmain. cbn zeta.
  destruct (path_exists S _); [|exact Hmain].
  destruct Hmain as [tr [res [Hrun ->]]].
  destruct (listdir W _) as [names|e] eqn:Hdir.
  - destruct (run_pipeline_accounts_for_every_file_aux N W _ _ _ names tr res Hdir Hrun)
      as [-> Hcount].
    exists tr. split; [exact Hrun|]. split; [|exact Hcount].
    f_equal. f_equal.
    unfold run_pipeline in Hrun. rewrite Hdir in Hrun.
    destruct (pdf_files_of names) as [|f fs].
    + now destruct Hrun as [-> _].
    + destruct Hrun as [Hmix _].
      rewrite (worker_effects_on_page _ _ tr
                 (fun e => submitted_effect_kinds _ _ _ _ _ _ _ e Hmix)).
      apply map_map.
  - unfold run_pipeline in Hrun. rewrite Hdir in Hrun.
    now destruct Hrun as [-> ->].
Qed.

Lemma main_verdict_witness :
  button clicked_docs "Process PDFs" = true
  /\ main english docs_world clicked_docs
       (form
        ++ [Shown (Inserted "pdf_summaries" "summaries"
                     (document_record english "docs/A.pdf"
                        [Some "Cats are great! "; None; Some "Who is it?"]));
            Shown (Inserted "pdf_summaries" "summaries"
                     (document_record english "docs/C.pdf"
                        [Some "Dogs bark! Dogs and cats play!"]))]
        ++ [Shown (StSuccess "PDFs processed successfully!")]).
Proof.
  split; [reflexivity|].
  set (run := run_pipeline_in_order english docs_world "docs" "pdf_summaries" "summaries").
  assert (Hmain : main english docs_world clicked_docs
                    (form ++ map Shown (filter outlives_workers (trace run))
                       ++ [Shown (StSuccess "PDFs processed successfully!")])).
  { exists (trace run), (result run). split; [|reflexivity].
    apply (run_pipeline_in_order_is_run english docs_world "docs"). }
  destruct (main_verdict english docs_world clicked_docs _ eq_refl Hmain)
    as [tr [_ [_ _]]].
  exact Hmain.
Defined.

(** ** The name of a record *)

Lemma basename_from_after_sep (a f cur : string) :
  OsPath.basename_from cur (a ++ String "/" f) = OsPath.basename_from f f.
Proof.
  revert cur. induction a as [|c a IH]; intros cur; simpl; [reflexivity|].
  destruct (Ascii.eqb c OsPath.sep); apply IH.
Qed.

Lemma basename_from_no_sep (f cur : string) :
  ~ In "/"%char (chars f) -> OsPath.basename_from cur f = cur.
Proof.
  revert cur. induction f as [|c f IH]; intros cur Hno; simpl; [reflexivity|].
  destruct (Ascii.eqb c OsPath.sep) eqn:Hc.
  - apply Ascii.eqb_eq in Hc. exfalso. apply Hno. now left.
  - apply IH. intros Hin. apply Hno. now right.
Qed.

Lemma endswith_suffix (s suffix : string) :
  endswith s suffix = true -> exists p, s = (p ++ suffix)%string.
Proof.
  induction s as [|c r IH]; cbn [endswith]; intros H.
  - rewrite orb_false_r in H. apply String.eqb_eq in H. now exists "".
  - apply orb_true_iff in H as [H|H].
    + apply String.eqb_eq in H. now exists "".
    + destruct (IH H) as [p ->]. now exists (String c p).
Qed.

Lemma endswith_app (p suffix : string) : endswith (p ++ suffix) suffix = true.
Proof.
  induction p as [|c p IH].
  - destruct suffix; cbn [endswith append]; now rewrite String.eqb_refl.
  - cbn [endswith append]. rewrite IH. apply orb_true_r.
Qed.

(** The last component of a joined path is the file name joined. *)
Lemma basename_join (folder_path f : string) :
  ~ In "/"%char (chars f) ->
  OsPath.basename (OsPath.join folder_path f) = f.
Proof.
  intros Hno. unfold OsPath.join, OsPath.basename.
  assert (Hstart : startswith f "/" = false).
  { unfold startswith. destruct f as [|c f]; [reflexivity|]. cbn [prefix].
    destruct (ascii_dec "/" c) as [<-|_]; [|reflexivity].
    exfalso. apply Hno. now left. }
  rewrite Hstart.
  destruct (is_empty folder_path || endswith folder_path "/") eqn:Hcase.
  - apply orb_true_iff in Hcase as [Hempty|Hend].
    + destruct folder_path; [|discriminate]. simpl.
      now apply basename_from_no_sep.
    + apply endswith_suffix in Hend as [p ->].
      rewrite string_app_assoc. simpl.
      rewrite basename_from_after_sep. now apply basename_from_no_sep.
  - change (folder_path ++ "/" ++ f)%string with (folder_path ++ String "/" f)%string.
    rewrite basename_from_after_sep. now apply basename_from_no_sep.
Qed.

Lemma rfind_app (ch : ascii) (s t : string) (i : nat) :
  rfind ch (s ++ t) i
  = match rfind ch t (i + String.length s) with
    | Some j => Some j
    | None => rfind ch s i
    end.
Proof.
  revert i. induction s as [|c r IH]; intros i; simpl.
  - rewrite Nat.add_0_r. now destruct (rfind ch t i).
  - rewrite IH. rewrite <- Nat.add_succ_comm.
    now destruct (rfind ch t (S i + String.length r)).
Qed.

Lemma rfind_absent (ch : ascii) (s : string) (i : nat) :
  ~ In ch (chars s) -> rfind ch s i = None.
Proof.
  revert i. induction s as [|c r IH]; intros i Hno; simpl; [reflexivity|].
  rewrite IH by (intros Hin; apply Hno; now right).
  destruct (Ascii.eqb c ch) eqn:Hc; [|reflexivity].
  apply Ascii.eqb_eq in Hc. exfalso. apply Hno. now left.
Qed.

Lemma get_in_prefix (s t : string) (c : ascii) :
  In c (chars s) ->
  exists k, k < String.length s /\ String.get k (s ++ t) = Some c.
Proof.
  induction s as [|a r IH]; simpl; intros Hin; [contradiction|].
  destruct Hin as [->|Hin].
  - exists 0. split; [lia|reflexivity].
  - destruct (IH Hin) as [k [Hk Hget]]. exists (S k). split; [lia|exact Hget].
Qed.

Lemma substring_prefix (s t : string) :
  substring 0 (String.length s) (s ++ t) = s.
Proof.
  induction s as [|c r IH]; simpl; [now destruct t|now rewrite IH].
Qed.

Lemma splitext_root_pdf (stem : string) (c : ascii) :
  ~ In "/"%char (chars stem) ->
  In c (chars stem) -> c <> "."%char ->
  OsPath.splitext_root (stem ++ ".pdf") = stem.
Proof.
  intros Hsep Hc Hdot. unfold OsPath.splitext_root.
  rewrite !rfind_app. cbn [rfind String.length Ascii.eqb Bool.eqb OsPath.extsep OsPath.sep].
  rewrite (rfind_absent OsPath.sep stem 0 Hsep). cbn [Nat.add Nat.leb Nat.sub].
  assert (Hsome : existsb
            (fun k => match String.get k (stem ++ ".pdf") with
                      | Some c => negb (Ascii.eqb c OsPath.extsep)
                      | None => false
                      end)
            (seq 0 (String.length stem)) = true).
  { apply existsb_exists.
    destruct (get_in_prefix stem ".pdf" c Hc) as [k [Hk Hget]].
    exists k. split; [apply in_seq; lia|].
    rewrite Hget. apply negb_true_iff. now apply Ascii.eqb_neq. }
  rewrite Nat.sub_0_r, Hsome. apply substring_prefix.
Qed.

(** X13. A file [stem.pdf] of the folder is among the PDFs processed, and its
    record is stored under the name [stem], provided the stem has a
    character other than a dot; dots inside the stem are kept. *)
Theorem record_named_after_file (N : nltk) (folder_path stem : string)
    (pages : list (option string)) (c : ascii) :
  ~ In "/"%char (chars stem) ->
  In c (chars stem) -> c <> "."%char ->
  pdf_files_of [(stem ++ ".pdf")%string] = [(stem ++ ".pdf")%string]
  /\ pdf_name (document_record N (OsPath.join folder_path (stem ++ ".pdf")) pages)
     = stem.
Proof.
  intros Hsep Hc Hdot. split.
  - unfold pdf_files_of. simpl. now rewrite endswith_app.
  - unfold document_record. cbn [pdf_name].
    rewrite basename_join.
    + now apply (splitext_root_pdf stem c).
    + intros Hin. apply Hsep. clear -Hin.
      induction stem as [|a r IH]; simpl in *.
      * repeat (destruct Hin as [Hin|Hin]; [discriminate|]). exact Hin.
      * destruct Hin as [Hin|Hin]; [now left|right; now apply IH].
Qed.

Lemma record_named_after_file_witness :
  ~ In "/"%char (chars "report.v2")
  /\ pdf_name (document_record english (OsPath.join "docs/" "report.v2.pdf") [])
     = "report.v2".
Proof.
  assert (Hsep : ~ In "/"%char (chars "report.v2")).
  { simpl. intros H. repeat (destruct H as [H|H]; [discriminate|]). exact H. }
  split; [exact Hsep|].
  apply (record_named_after_file english "docs/" "report.v2" [] "r" Hsep).
  - simpl. tauto.
  - discriminate.
Defined.

(** ** Casing *)

Lemma isspace_lower_char (c : ascii) :
  isspace_char (lower_char c) = isspace_char c.
Proof.
  destruct c as [[] [] [] [] [] [] [] []]; reflexivity.
Qed.

Lemma lower_app (s t : string) : lower (s ++ t) = (lower s ++ lower t)%string.
Proof.
  induction s as [|c r IH]; simpl; [reflexivity|now rewrite IH].
Qed.

Lemma starts_word_lower (s : string) : starts_word (lower s) = starts_word s.
Proof.
  destruct s as [|c r]; simpl; [reflexivity|now rewrite isspace_lower_char].
Qed.

Lemma split_lower (s : string) : split (lower s) = map lower (split s).
Proof.
  induction s as [|c r IH]; simpl; [reflexivity|].
  rewrite isspace_lower_char, starts_word_lower, IH.
  destruct (isspace_char c); [reflexivity|].
  destruct (starts_word r); [|reflexivity].
  now destruct (split r).
Qed.

Lemma lower_join (ws : list string) :
  lower (join " " ws) = join " " (map lower ws).
Proof.
  unfold join. induction ws as [|w ws IH]; [reflexivity|].
  destruct ws as [|w' ws']; [reflexivity|].
  change (String.concat " " (w :: w' :: ws'))
    with (w ++ String " " (String.concat " " (w' :: ws')))%string.
  change (String.concat " " (map lower (w :: w' :: ws')))
    with (lower w ++ String " " (String.concat " " (map lower (w' :: ws'))))%string.
  rewrite lower_app. cbn [lower]. now rewrite IH.
Qed.

Lemma drop_stopwords_lower (N : nltk) (ws : list string) :
  drop_stopwords N (map lower ws) = map lower (drop_stopwords N ws).
Proof.
  unfold drop_stopwords, is_stopword.
  induction ws as [|w ws IH]; simpl; [reflexivity|].
  rewrite lower_idempotent.
  destruct (negb (existsb (String.eqb (lower w)) (stopwords_words N))); simpl;
    now rewrite IH.
Qed.

Lemma all_space_lower (s : string) :
  all_chars isspace_char (lower s) = all_chars isspace_char s.
Proof.
  induction s as [|c r IH]; simpl; [reflexivity|].
  now rewrite isspace_lower_char, IH.
Qed.

(** X14. Keyword extraction does not see the casing of the text: lower-casing
    the text beforehand gives the same keywords. Words are compared with
    the stopword list in lower case, and the tokens are counted in lower
    case. *)
Theorem extract_keywords_ignores_case (N : nltk) (t : string) (n : nat) :
  extract_keywords N (lower t) n = extract_keywords N t n.
Proof.
  unfold extract_keywords. rewrite !strip_blank, all_space_lower.
  destruct (all_chars isspace_char t); [reflexivity|].
  do 3 f_equal. unfold keyword_freq.
  rewrite split_lower, drop_stopwords_lower, <- lower_join.
  now rewrite lower_idempotent.
Qed.
